(** * Session controller of the arena game (src/party/server.ts)

    A shallow embedding of the PartyKit room server: the session state
    ([GameState]), the message handler [onMessage], the win-condition
    evaluator [checkWinCondition] and the body of the 50 ms minion loop
    ([minionTick]), followed by the properties of the specification.

    Numbers.  The embedding comes twice.  In the first one every
    TypeScript [number] is a real number: the arithmetic of the handlers
    ([-], [+], [Math.min], [Math.sqrt], [Math.hypot], [<], [===]) is the
    exact one.  Rounding, NaN and the infinities of IEEE doubles are
    outside this first model, and so are payload fields of the wrong JSON
    type.  The second one, the module [B64], has the same handlers over
    binary64 numbers, NaN and the infinities included (a damage of 1e999
    in a message is read as Infinity, and a damage that is not a number
    acts as NaN in a subtraction); the properties that depend on NaN, on
    overflow or on the rounding of a distance are stated over it.

    Objects.  [state.players] is a JavaScript object used as a map: an
    ordered sequence of (key, value) properties with distinct keys, listed
    by [Object.keys] / [Object.values] in the order of the language
    (array-index keys ascending, then the other keys by creation).  A
    lookup sees the properties of the object itself only: the properties
    that [state.players] inherits from its prototype are not in the
    model, and neither is the write through ["__proto__"], which replaces
    the prototype instead of creating a property.  The statements on a
    lookup that finds nothing are restricted to the names that cannot be
    inherited ([inherited]), and those on the roster after a join to the
    connections that are not named ["__proto__"].  Player objects are
    mutated in place by the handlers; a reference to a player is modelled
    by its key, and every read goes through the map, so two references to
    the same player see each other's writes. *)

From Stdlib Require Import Reals Lra Lia ZArith String Ascii Bool List Classical.
From Stdlib Require SpecFloat.
Import ListNotations.

#[local] Open Scope R_scope.

(** ** Numbers *)

Abbreviation number := R (only parsing).

Definition num_lt (a b : number) : bool := if Rlt_dec a b then true else false.
Definition num_le (a b : number) : bool := if Rle_dec a b then true else false.
Definition num_eq (a b : number) : bool := if Req_dec_T a b then true else false.

(** [Math.hypot(a, b)] and [Math.sqrt]. *)
Definition hypot (a b : number) : number := sqrt (a * a + b * b).

(** [Math.floor]. *)
Definition floor (a : number) : Z := Zfloor a.

(** ** JavaScript objects as ordered property maps *)

Module Obj.

Section WithValue.
Context {V : Type}.

Definition t : Type := list (string * V).

Definition keys (o : t) : list string := map fst o.
Definition values (o : t) : list V := map snd o.

(** [o[k]]: the value of property [k], [None] for [undefined]. *)
Fixpoint get (k : string) (o : t) : option V :=
  match o with
  | [] => None
  | (k', v) :: o' => if String.eqb k k' then Some v else get k o'
  end.

(** A write through [o[k]] to an existing property: the property keeps its
    place in the order. *)
Fixpoint update (k : string) (f : V -> V) (o : t) : t :=
  match o with
  | [] => []
  | (k', v) :: o' =>
      if String.eqb k k' then (k', f v) :: o' else (k', v) :: update k f o'
  end.

Definition digit (c : ascii) : option N :=
  let n := N_of_ascii c in
  if ((48 <=? n) && (n <=? 57))%N then Some (n - 48)%N else None.

Fixpoint digits (s : string) (acc : N) : option N :=
  match s with
  | EmptyString => Some acc
  | String c s' =>
      match digit c with
      | Some d => digits s' (acc * 10 + d)%N
      | None => None
      end
  end.

(** The array index a key denotes, if it is the canonical decimal form of an
    integer below 2^32 - 1. *)
Definition array_index (k : string) : option N :=
  match k with
  | EmptyString => None
  | String "0"%char EmptyString => Some 0%N
  | String "0"%char _ => None
  | _ =>
      match digits k 0%N with
      | Some n => if (n <? 4294967295)%N then Some n else None
      | None => None
      end
  end.

(** Creation of an array-index property: before the first property that is
    not an array index or has a larger one. *)
Fixpoint insert_index (n : N) (k : string) (v : V) (o : t) : t :=
  match o with
  | [] => [(k, v)]
  | (k', v') :: o' =>
      match array_index k' with
      | Some m => if (n <? m)%N then (k, v) :: o
                  else (k', v') :: insert_index n k v o'
      | None => (k, v) :: o
      end
  end.

(** Creation of a property that does not exist yet. *)
Definition define (k : string) (v : V) (o : t) : t :=
  match array_index k with
  | Some n => insert_index n k v o
  | None => o ++ [(k, v)]
  end.

(** [o[k] = v]. *)
Definition set (k : string) (v : V) (o : t) : t :=
  match get k o with
  | Some _ => update k (fun _ => v) o
  | None => define k v o
  end.

(** An array read [a[i]]: [undefined] out of range. *)
Definition index {A : Type} (a : list A) (i : Z) : option A :=
  if (i <? 0)%Z then None else nth_error a (Z.to_nat i).

End WithValue.

Arguments t : clear implicits.

End Obj.

(** ** Data model *)

Inductive Role : Type := hunter | runner.

Definition Role_eqb (a b : Role) : bool :=
  match a, b with
  | hunter, hunter | runner, runner => true
  | _, _ => false
  end.

Module Player.
Record t : Type := mk {
  id : string;
  x : number;
  z : number;
  rot : number;
  role : Role;
  hp : number;
  weapon : string;
  charIndex : number
}.

Definition with_pos (x' z' rot' : number) (p : t) : t :=
  mk (id p) x' z' rot' (role p) (hp p) (weapon p) (charIndex p).
Definition with_role (r : Role) (p : t) : t :=
  mk (id p) (x p) (z p) (rot p) r (hp p) (weapon p) (charIndex p).
Definition with_hp (h : number) (p : t) : t :=
  mk (id p) (x p) (z p) (rot p) (role p) h (weapon p) (charIndex p).
Definition with_weapon (w : string) (p : t) : t :=
  mk (id p) (x p) (z p) (rot p) (role p) (hp p) w (charIndex p).
Definition with_charIndex (c : number) (p : t) : t :=
  mk (id p) (x p) (z p) (rot p) (role p) (hp p) (weapon p) c.
End Player.

Module Minion.
Record t : Type := mk {
  x : number;
  z : number;
  hp : number
}.
End Minion.

Record GameState : Type := mkState {
  players : Obj.t Player.t;
  minion : option Minion.t;
  started : bool;
  lastHitTime : number
}.

Definition with_players (ps : Obj.t Player.t) (s : GameState) : GameState :=
  mkState ps (minion s) (started s) (lastHitTime s).
Definition with_minion (m : option Minion.t) (s : GameState) : GameState :=
  mkState (players s) m (started s) (lastHitTime s).

(** ** Messages *)

(** What a client sends ([data], after [JSON.parse]).  [sourceId] is
    optional; [other] is any [type] the switch has no case for. *)
Inductive Inbound : Type :=
| join
| select_char (charIndex : number)
| move (id : string) (x z rot : number)
| start_game
| hit (targetId : string) (sourceId : option string) (damage : number)
| minion_hit (damage : number)
| pickup (id : string) (weapon : string)
| other (type : string).

Record RosterEntry : Type := mkEntry {
  e_id : string;
  e_charIndex : number;
  e_hp : number;
  e_role : Role
}.

(** What the server sends. *)
Inductive Outbound : Type :=
| msg_init (state : GameState)
| msg_player_join (roster : list RosterEntry)
| msg_player_update (player : Player.t)
| msg_update (id : string) (x z rot : number)
| msg_game_start (state : GameState)
| msg_hit (targetId : string) (hp : number)
| msg_minion_hit (hp : number)
| msg_minion_update (x z hp : number)
| msg_pickup (id : string) (weapon : string)
| msg_game_over (winner reason : string).

(** [room.broadcast(m, without)] and [conn.send(m)]. *)
Inductive Effect : Type :=
| broadcast (m : Outbound) (without : list string)
| send (to : string) (m : Outbound).

(** ** The win-condition evaluator *)

Definition alive (r : Role) (p : Player.t) : bool :=
  Role_eqb (Player.role p) r && num_lt 0 (Player.hp p).

Definition minionAlive (state : GameState) : bool :=
  match minion state with
  | Some m => num_lt 0 (Minion.hp m)
  | None => false
  end.

Definition game_over_hunter : Effect :=
  broadcast (msg_game_over "Hunter" "Runners Eliminated") [].
Definition game_over_runners : Effect :=
  broadcast (msg_game_over "Runners" "Hunter & Minion Defeated") [].

(** An object or [undefined] used as a condition. *)
Definition defined {A : Type} (o : option A) : bool :=
  match o with
  | Some _ => true
  | None => false
  end.

(** [checkWinCondition(room, state)]: it reads the state and broadcasts at
    most one message. *)
Definition checkWinCondition (state : GameState) : list Effect :=
  let aliveRunners :=
    length (filter (alive runner) (Obj.values (players state))) in
  let aliveHunter := find (alive hunter) (Obj.values (players state)) in
  if Nat.eqb aliveRunners 0 then [game_over_hunter]
  else if negb (defined aliveHunter) && negb (minionAlive state)
       then [game_over_runners]
       else [].

(** ** The message handler *)

Definition fresh_player (id : string) : Player.t :=
  Player.mk id 0 0 0 runner 100 "none" 0.

Definition fresh_minion : Minion.t := Minion.mk 0 0 500.

Definition initial_state : GameState := mkState [] None false 0.

Definition roster_entry (p : Player.t) : RosterEntry :=
  mkEntry (Player.id p) (Player.charIndex p) (Player.hp p) (Player.role p).

(** A string is truthy when it is not empty; an absent field is falsy. *)
Definition truthy (s : option string) : bool :=
  match s with
  | Some EmptyString | None => false
  | Some _ => true
  end.

(** The callback of the [forEach] of [start-game]: what it writes to the
    player [id], and the write itself. *)
Definition reset (hunterId : option string) (id : string) (p : Player.t)
    : Player.t :=
  let is_hunter :=
    match hunterId with
    | Some h => String.eqb id h
    | None => false
    end in
  Player.with_weapon "none"
    (Player.with_hp 100
       (Player.with_role (if is_hunter then hunter else runner) p)).

Definition reset_player (hunterId : option string) (id : string)
    (ps : Obj.t Player.t) : Obj.t Player.t :=
  Obj.update id (reset hunterId id) ps.

(** [target.hp -= damage; if (target.hp < 0) target.hp = 0]. *)
Definition damaged (h damage : number) : number :=
  let h' := h - damage in
  if num_lt h' 0 then 0 else h'.

Definition hp_of (id : string) (ps : Obj.t Player.t) : number :=
  match Obj.get id ps with
  | Some p => Player.hp p
  | None => 0
  end.

(** The heal of a hunter: [source.hp = Math.min(150, source.hp + 20)]. *)
Definition heal_source (sourceId : option string) (ps : Obj.t Player.t)
    : Obj.t Player.t :=
  match sourceId with
  | Some s =>
      match Obj.get s ps with
      | Some source =>
          if Role_eqb (Player.role source) hunter
          then Obj.update s
                 (Player.with_hp (Rmin 150 (Player.hp source + 20))) ps
          else ps
      | None => ps
      end
  | None => ps
  end.

(** The switch of [onMessage] on a state that exists.  [rnd] is the value
    of [Math.random()] the case [start-game] draws, [conn] is [conn.id]. *)
Definition handle (rnd : number) (data : Inbound) (conn : string)
    (state : GameState) : GameState * list Effect :=
  match data with
  | join =>
      let state' :=
        with_players (Obj.set conn (fresh_player conn) (players state)) state in
      (state',
       [broadcast
          (msg_player_join (map roster_entry (Obj.values (players state')))) [];
        send conn (msg_init state')])
  | select_char charIndex =>
      match Obj.get conn (players state) with
      | Some _ =>
          let ps := Obj.update conn (Player.with_charIndex charIndex)
                      (players state) in
          (with_players ps state,
           match Obj.get conn ps with
           | Some p => [broadcast (msg_player_update p) []]
           | None => []
           end)
      | None => (state, [])
      end
  | move id x z rot =>
      match Obj.get id (players state) with
      | Some _ =>
          (with_players
             (Obj.update id (Player.with_pos x z rot) (players state)) state,
           [broadcast (msg_update id x z rot) [conn]])
      | None => (state, [])
      end
  | start_game =>
      let playerIds := Obj.keys (players state) in
      if Nat.eqb (length playerIds) 0 then (state, [])
      else
        let hunterId :=
          Obj.index playerIds (floor (rnd * INR (length playerIds))) in
        let ps :=
          fold_left (fun ps id => reset_player hunterId id ps)
            (Obj.keys (players state)) (players state) in
        let state' := mkState ps (Some fresh_minion) true (lastHitTime state) in
        (state', [broadcast (msg_game_start state') []])
  | hit targetId sourceId damage =>
      match Obj.get targetId (players state) with
      | Some target =>
          let h := damaged (Player.hp target) damage in
          let ps1 := Obj.update targetId (Player.with_hp h) (players state) in
          let ps2 :=
            if num_eq h 0 && truthy sourceId then heal_source sourceId ps1
            else ps1 in
          let state' := with_players ps2 state in
          (state',
           broadcast (msg_hit targetId (hp_of targetId ps2)) []
             :: checkWinCondition state')
      | None => (state, [])
      end
  | minion_hit damage =>
      match minion state with
      | Some m =>
          let h := Minion.hp m - damage in
          let m' := Minion.mk (Minion.x m) (Minion.z m) h in
          if num_le h 0 then
            let state' := with_minion None state in
            (state',
             broadcast (msg_minion_hit h) [] :: checkWinCondition state')
          else
            (with_minion (Some m') state, [broadcast (msg_minion_hit h) []])
      | None => (state, [])
      end
  | pickup id weapon =>
      match Obj.get id (players state) with
      | Some _ =>
          (with_players
             (Obj.update id (Player.with_weapon weapon) (players state)) state,
           [broadcast (msg_pickup id weapon) []])
      | None => (state, [])
      end
  | other _ => (state, [])
  end.

(** [onMessage(message, conn, room)]: the room's state slot is empty until
    the first message, which creates the state. *)
Definition onMessage (rnd : number) (data : Inbound) (conn : string)
    (room : option GameState) : option GameState * list Effect :=
  let state :=
    match room with
    | Some state => state
    | None => initial_state
    end in
  let (state', out) := handle rnd data conn state in
  (Some state', out).

(** ** The minion loop *)

(** The callback of the [forEach] that looks for the nearest runner: the
    accumulator is the pair of the variables [minDist] and [nearest]. *)
Definition scan (m : Minion.t) (acc : number * option (string * Player.t))
    (e : string * Player.t) : number * option (string * Player.t) :=
  let (minDist, _) := acc in
  let (k, p) := e in
  if alive runner p then
    let d := hypot (Player.x p - Minion.x m) (Player.z p - Minion.z m) in
    if num_lt d minDist then (d, Some (k, p)) else acc
  else acc.

Definition find_nearest (m : Minion.t) (ps : Obj.t Player.t)
    : number * option (string * Player.t) :=
  fold_left (scan m) ps (9999, None).

Definition speed : number := 0.15.

(** One run of the interval callback of [onStart]. *)
Definition minionTick (room : option GameState)
    : option GameState * list Effect :=
  match room with
  | None => (room, [])
  | Some state =>
      if negb (started state) then (room, [])
      else
        match minion state with
        | None => (room, [])
        | Some m =>
            let (minDist, nearest) := find_nearest m (players state) in
            let (state', out) :=
              match nearest with
              | Some (k, p) =>
                  let dx := Player.x p - Minion.x m in
                  let dz := Player.z p - Minion.z m in
                  let len := sqrt (dx * dx + dz * dz) in
                  if num_lt 0 len then
                    let m' :=
                      Minion.mk (Minion.x m + dx / len * speed)
                                (Minion.z m + dz / len * speed)
                                (Minion.hp m) in
                    let state1 := with_minion (Some m') state in
                    if num_lt minDist 3.5 then
                      let h := damaged (Player.hp p) 0.5 in
                      let state2 :=
                        with_players
                          (Obj.update k (Player.with_hp h) (players state1))
                          state1 in
                      (state2,
                       broadcast (msg_hit (Player.id p) h) []
                         :: checkWinCondition state2)
                    else (state1, [])
                  else (state, [])
              | None => (state, [])
              end in
            (Some state',
             out ++
             match minion state' with
             | Some m' =>
                 [broadcast
                    (msg_minion_update (Minion.x m') (Minion.z m')
                       (Minion.hp m')) []]
             | None => []
             end)
        end
  end.

(** ** Sessions *)

(** The keys of an object are distinct ([well_formed_reachable] below:
    every state of a room is well formed). *)
Definition well_formed (state : GameState) : Prop :=
  NoDup (Obj.keys (players state)).

(** The two sources of mutation of a room: a client message, whose
    [Math.random()] draw lies in [0, 1), and a run of the minion loop.
    [allowed] restricts the messages that are considered. *)
Section Reachability.
Variable allowed : Inbound -> string -> option GameState -> Prop.

Inductive step_with : option GameState -> option GameState -> Prop :=
| step_message rnd data conn room :
    0 <= rnd < 1 -> allowed data conn room ->
    step_with room (fst (onMessage rnd data conn room))
| step_tick room : step_with room (fst (minionTick room)).

(** The states of a room, from the empty state slot. *)
Inductive reachable_with : option GameState -> Prop :=
| reachable_init : reachable_with None
| reachable_step room room' :
    reachable_with room -> step_with room room' -> reachable_with room'.

End Reachability.

(** Every message is allowed. *)
Definition reachable : option GameState -> Prop :=
  reachable_with (fun _ _ _ => True).

(** ** Notions of the specification *)

Definition has_role (r : Role) (p : Player.t) : bool :=
  Role_eqb (Player.role p) r.

(** The number of players that hold a role. *)
Definition count_role (r : Role) (ps : Obj.t Player.t) : nat :=
  length (filter (has_role r) (Obj.values ps)).

(** The roster as the sequence of its keys with the role each one holds. *)
Definition roles (ps : Obj.t Player.t) : list (string * Role) :=
  map (fun e => (fst e, Player.role (snd e))) ps.

(** Every hp of the roster satisfies [P]. *)
Definition all_hp (P : number -> Prop) (ps : Obj.t Player.t) : Prop :=
  Forall (fun p => P (Player.hp p)) (Obj.values ps).

(** Every hp of the roster is between 0 and the cap of the heal. *)
Definition bounded_hp (ps : Obj.t Player.t) : Prop :=
  all_hp (fun h => 0 <= h <= 150) ps.

(** A present [sourceId] that names a hunter of the roster. *)
Definition names_hunter (ps : Obj.t Player.t) (sourceId : option string)
    (s : string) : Prop :=
  sourceId = Some s /\ s <> EmptyString /\
  exists source, Obj.get s ps = Some source /\ Player.role source = hunter.

Definition alive_runner (p : Player.t) : Prop :=
  Player.role p = runner /\ 0 < Player.hp p.

Definition alive_hunter (p : Player.t) : Prop :=
  Player.role p = hunter /\ 0 < Player.hp p.

(** The three conditions the evaluator decides on. *)
Definition no_alive_runner (state : GameState) : Prop :=
  forall p, In p (Obj.values (players state)) -> ~ alive_runner p.

Definition no_alive_hunter (state : GameState) : Prop :=
  forall p, In p (Obj.values (players state)) -> ~ alive_hunter p.

Definition no_alive_minion (state : GameState) : Prop :=
  forall m, minion state = Some m -> ~ 0 < Minion.hp m.

(** The Euclidean distance in the plane from the minion to a player. *)
Definition dist (m : Minion.t) (p : Player.t) : number :=
  sqrt (Rsqr (Player.x p - Minion.x m) + Rsqr (Player.z p - Minion.z m)).

(** The first player, in iteration order, among the living runners at the
    least distance from the minion. *)
Definition first_nearest (m : Minion.t) (ps : Obj.t Player.t)
    (k : string) (p : Player.t) : Prop :=
  exists l1 l2,
    ps = l1 ++ (k, p) :: l2 /\ alive_runner p /\
    (forall k' p', In (k', p') l1 -> alive_runner p' -> dist m p < dist m p') /\
    (forall k' p', In (k', p') l2 -> alive_runner p' -> dist m p <= dist m p').

Definition is_integer (a : number) : Prop := exists n : Z, a = IZR n.

Definition is_half_integer (a : number) : Prop := exists n : Z, a = IZR n / 2.

(** The damage field of a message, if it has one, satisfies [D]. *)
Definition damage_in (D : number -> Prop) (data : Inbound) : Prop :=
  match data with
  | hit _ _ damage | minion_hit damage => D damage
  | _ => True
  end.

Definition integer_damage (data : Inbound) : Prop := damage_in is_integer data.

(** The states reached by messages whose damage is an integer. *)
Definition reachable_integer : option GameState -> Prop :=
  reachable_with (fun data _ _ => integer_damage data).

(** A join from the connection whose player holds the role of hunter. *)
Definition hunter_rejoins (data : Inbound) (conn : string)
    (room : option GameState) : Prop :=
  data = join /\
  exists state p,
    room = Some state /\ Obj.get conn (players state) = Some p /\
    Player.role p = hunter.

(** The states reached when no hunter joins again. *)
Definition reachable_keeping_hunter : option GameState -> Prop :=
  reachable_with (fun data conn room => ~ hunter_rejoins data conn room).

(** The invariant of a session: distinct keys, and exactly one hunter once
    the game has started. *)
Definition one_hunter (room : option GameState) : Prop :=
  match room with
  | Some state =>
      well_formed state /\
      (started state = true -> count_role hunter (players state) = 1%nat)
  | None => True
  end.

(** A sequence of [hit] messages handled one after the other; the case
    [hit] of the handler uses neither the random draw nor the connection. *)
Record HitEvent : Type := mkHit {
  targetId : string;
  sourceId : option string;
  damage : number
}.

Definition apply_hit (state : GameState) (e : HitEvent) : GameState :=
  fst (handle 0 (hit (targetId e) (sourceId e) (damage e)) EmptyString state).

Definition apply_hits (es : list HitEvent) (state : GameState) : GameState :=
  fold_left apply_hit es state.

(** The heal of the hunter [id] fires on the event [e] in [state]. *)
Definition heals (e : HitEvent) (state : GameState) (id : string) : Prop :=
  names_hunter (players state) (sourceId e) id /\
  exists target,
    Obj.get (targetId e) (players state) = Some target /\
    Rmax 0 (Player.hp target - damage e) = 0.

(** ** Sessions used as examples *)

Definition two_players : GameState :=
  mkState [("a"%string, fresh_player "a"); ("b"%string, fresh_player "b")]
    None false 0.

(** A hunter at hp 0, a runner at hp 50 and no minion. *)
Definition hunter_down : GameState :=
  mkState [("h"%string, Player.mk "h" 0 0 0 hunter 0 "none" 0);
           ("r"%string, Player.mk "r" 0 0 0 runner 50 "none" 0)]
    None true 0.

(** A started game whose minion is left with hp 10. *)
Definition minion_low : GameState :=
  mkState [("a"%string, Player.mk "a" 0 0 0 hunter 100 "none" 0);
           ("b"%string, Player.mk "b" 0 0 0 runner 100 "none" 0)]
    (Some (Minion.mk 0 0 10)) true 0.

(** A hunter at hp 100 and a runner left with hp 5. *)
Definition runner_low : GameState :=
  mkState [("a"%string, Player.mk "a" 0 0 0 hunter 100 "none" 0);
           ("b"%string, Player.mk "b" 0 0 0 runner 5 "none" 0)]
    (Some fresh_minion) true 0.

(** The room after the join of "a". *)
Definition lobby_a : GameState :=
  mkState [("a"%string, fresh_player "a")] None false 0.

(** The lobby once "b" has moved to (1, 0). *)
Definition lobby_moved : GameState :=
  mkState [("a"%string, fresh_player "a");
           ("b"%string, Player.mk "b" 1 0 0 runner 100 "none" 0)]
    None false 0.

(** The game started from [lobby_moved] with "a" as the hunter. *)
Definition game_moved : GameState :=
  mkState [("a"%string, Player.mk "a" 0 0 0 hunter 100 "none" 0);
           ("b"%string, Player.mk "b" 1 0 0 runner 100 "none" 0)]
    (Some fresh_minion) true 0.

(** The game started from [two_players] with "a" as the hunter: the runner
    and the minion are both at (0, 0). *)
Definition game_origin : GameState :=
  mkState [("a"%string, Player.mk "a" 0 0 0 hunter 100 "none" 0);
           ("b"%string, Player.mk "b" 0 0 0 runner 100 "none" 0)]
    (Some fresh_minion) true 0.

(** [game_moved] after one run of the minion loop. *)
Definition game_moved_ticked : GameState :=
  mkState [("a"%string, Player.mk "a" 0 0 0 hunter 100 "none" 0);
           ("b"%string, Player.mk "b" 1 0 0 runner 99.5 "none" 0)]
    (Some (Minion.mk 0.15 0 500)) true 0.

(** [game_origin] after the hunter "a" has joined again. *)
Definition game_rejoined : GameState :=
  mkState [("a"%string, fresh_player "a");
           ("b"%string, Player.mk "b" 0 0 0 runner 100 "none" 0)]
    (Some fresh_minion) true 0.

(** The lobby once "b" has moved to (10000, 0). *)
Definition lobby_far : GameState :=
  mkState [("a"%string, fresh_player "a");
           ("b"%string, Player.mk "b" 10000 0 0 runner 100 "none" 0)]
    None false 0.

(** The game started from [lobby_far] with "a" as the hunter: the only
    runner is 10000 units away from the minion. *)
Definition game_far : GameState :=
  mkState [("a"%string, Player.mk "a" 0 0 0 hunter 100 "none" 0);
           ("b"%string, Player.mk "b" 10000 0 0 runner 100 "none" 0)]
    (Some fresh_minion) true 0.

(** The runners of [game_origin], [game_moved] and [game_far]. *)
Definition runner_origin : Player.t := Player.mk "b" 0 0 0 runner 100 "none" 0.
Definition runner_moved : Player.t := Player.mk "b" 1 0 0 runner 100 "none" 0.
Definition runner_far : Player.t := Player.mk "b" 10000 0 0 runner 100 "none" 0.

(** [game_moved_ticked] after a hit of damage 7 on "b" by the hunter "a". *)
Definition game_moved_hit : GameState :=
  mkState [("a"%string, Player.mk "a" 0 0 0 hunter 100 "none" 0);
           ("b"%string, Player.mk "b" 1 0 0 runner 92.5 "none" 0)]
    (Some (Minion.mk 0.15 0 500)) true 0.

(** [game_origin] after one, two and three hits of damage 100 on "b" by
    the hunter "a": the runner is at 0 and the hunter is healed to 120, to
    140 and, capped, to 150. *)
Definition game_healed (h : number) : GameState :=
  mkState [("a"%string, Player.mk "a" 0 0 0 hunter h "none" 0);
           ("b"%string, Player.mk "b" 0 0 0 runner 0 "none" 0)]
    (Some fresh_minion) true 0.

(** [game_origin] after a hit of damage 490 on the minion. *)
Definition game_minion_hit : GameState :=
  mkState [("a"%string, Player.mk "a" 0 0 0 hunter 100 "none" 0);
           ("b"%string, Player.mk "b" 0 0 0 runner 100 "none" 0)]
    (Some (Minion.mk 0 0 10)) true 0.

(** Three hits on [runner_low]: the hunter "a" hits the runner "b" from 5
    to 2 and then to 0, which heals "a" to 120, and then hits itself to 0,
    which heals it to 20. *)
Definition hits_low : list HitEvent :=
  [mkHit "b" (Some "a"%string) 3; mkHit "b" (Some "a"%string) 5;
   mkHit "a" (Some "a"%string) 200].

(** [runner_low] after the first two hits of [hits_low]. *)
Definition runner_down : GameState :=
  mkState [("a"%string, Player.mk "a" 0 0 0 hunter 120 "none" 0);
           ("b"%string, Player.mk "b" 0 0 0 runner 0 "none" 0)]
    (Some fresh_minion) true 0.

(** ** Further notions *)

(** The names that a lookup [state.players[k]] can find without a property
    [k] of the object itself: the properties of [Object.prototype], and the
    names of the fields of a player, which a write to the player found
    under ["__proto__"] leaves on a prototype. *)
Definition prototype_names : list string :=
  ["__proto__"; "constructor"; "hasOwnProperty"; "isPrototypeOf";
   "propertyIsEnumerable"; "toLocaleString"; "toString"; "valueOf";
   "__defineGetter__"; "__defineSetter__"; "__lookupGetter__";
   "__lookupSetter__";
   "id"; "x"; "z"; "rot"; "role"; "hp"; "weapon"; "charIndex"]%string.

Definition inherited (k : string) : bool :=
  existsb (String.eqb k) prototype_names.

(** No connection named ["__proto__"] has joined: the object
    [state.players] has the prototype it was created with. *)
Definition no_proto (state : GameState) : Prop :=
  Obj.get "__proto__" (players state) = None.

(** The states reached by messages whose damage is an integer >= 0. *)
Definition reachable_natural : option GameState -> Prop :=
  reachable_with
    (fun data _ _ => damage_in (fun d => is_integer d /\ 0 <= d) data).

(** The field [id] of every player is the key it is stored under. *)
Definition ids_match (ps : Obj.t Player.t) : Prop :=
  Forall (fun e => Player.id (snd e) = fst e) ps.

(** The states reached by messages whose damage is not negative. *)
Definition reachable_nonneg_damage : option GameState -> Prop :=
  reachable_with (fun data _ _ => damage_in (fun d => 0 <= d) data).

(** What only a join writes: the identity of a player, its position and its
    character. *)
Definition same_identity (p p' : Player.t) : Prop :=
  Player.id p' = Player.id p /\ Player.x p' = Player.x p /\
  Player.z p' = Player.z p /\ Player.rot p' = Player.rot p /\
  Player.charIndex p' = Player.charIndex p.

(** * The server over binary64

    The same handlers with every [number] an IEEE 754 binary64 value
    ([spec_float] at precision 53 and maximal exponent 1024, the
    specification of the arithmetic of doubles): [-], [+], [*], [/] and
    [Math.sqrt] round to nearest, ties to even, and overflow to the
    infinities; NaN compares false with everything.  The doubles are the
    values of [spec_float] in canonical form, which the operations return
    and on which the comparisons are those of the language; the literals
    of the source below are in that form.  [Math.hypot] is the one
    operation whose rounding the language leaves to the implementation:
    the minion loop takes it as a parameter.  Objects are the property
    maps of [Obj], and roles, truthiness and the order of the keys are
    those of the first model. *)

Module B64.

Import SpecFloat.

Abbreviation number := spec_float (only parsing).

Definition prec : Z := 53.
Definition emax : Z := 1024.

Definition add : number -> number -> number := SFadd prec emax.
Definition sub : number -> number -> number := SFsub prec emax.
Definition mul : number -> number -> number := SFmul prec emax.
Definition div : number -> number -> number := SFdiv prec emax.
Definition sqrt : number -> number := SFsqrt prec emax.
Definition ltb : number -> number -> bool := SFltb.
Definition leb : number -> number -> bool := SFleb.
Definition eqb : number -> number -> bool := SFeqb.

(** The double of an integer, and of [m * 2^e]. *)
Definition of_Z (n : Z) : number := binary_normalize prec emax n 0 false.
Definition of_scaled (m e : Z) : number := binary_normalize prec emax m e false.

(** The literals of the source.  [0.15] is the double nearest to 15/100,
    which the correctly rounded division gives. *)
Definition zero : number := S754_zero false.
Definition c20 : number := of_Z 20.
Definition c100 : number := of_Z 100.
Definition c150 : number := of_Z 150.
Definition c500 : number := of_Z 500.
Definition c9999 : number := of_Z 9999.
Definition c0_5 : number := of_scaled 1 (-1).
Definition c3_5 : number := of_scaled 7 (-1).
Definition c0_15 : number := div (of_Z 15) (of_Z 100).

Definition infinity : number := S754_infinity false.
Definition neg_infinity : number := S754_infinity true.
Definition nan : number := S754_nan.

(** [Math.min(a, b)]: NaN when one of the two is NaN, and -0 below +0. *)
Definition min (a b : number) : number :=
  match SFcompare a b with
  | None => S754_nan
  | Some Lt => a
  | Some Gt => b
  | Some Eq =>
      match a with
      | S754_zero true => a
      | _ => b
      end
  end.

(** [Math.floor(a)] as the integer it denotes, for a finite [a]. *)
Definition floor (a : number) : option Z :=
  match a with
  | S754_zero _ => Some 0%Z
  | S754_finite s m e => Some (Z.shiftl (cond_Zopp s (Zpos m)) e)
  | S754_infinity _ | S754_nan => None
  end.

(** [a[Math.floor(x)]]: [undefined] when the index is not one of the
    array. *)
Definition index_floor {A : Type} (a : list A) (x : number) : option A :=
  match floor x with
  | Some i => Obj.index a i
  | None => None
  end.

Module Player.
Record t : Type := mk {
  id : string;
  x : number;
  z : number;
  rot : number;
  role : Role;
  hp : number;
  weapon : string;
  charIndex : number
}.

Definition with_pos (x' z' rot' : number) (p : t) : t :=
  mk (id p) x' z' rot' (role p) (hp p) (weapon p) (charIndex p).
Definition with_role (r : Role) (p : t) : t :=
  mk (id p) (x p) (z p) (rot p) r (hp p) (weapon p) (charIndex p).
Definition with_hp (h : number) (p : t) : t :=
  mk (id p) (x p) (z p) (rot p) (role p) h (weapon p) (charIndex p).
Definition with_weapon (w : string) (p : t) : t :=
  mk (id p) (x p) (z p) (rot p) (role p) (hp p) w (charIndex p).
Definition with_charIndex (c : number) (p : t) : t :=
  mk (id p) (x p) (z p) (rot p) (role p) (hp p) (weapon p) c.
End Player.

Module Minion.
Record t : Type := mk {
  x : number;
  z : number;
  hp : number
}.
End Minion.

Record GameState : Type := mkState {
  players : Obj.t Player.t;
  minion : option Minion.t;
  started : bool;
  lastHitTime : number
}.

Definition with_players (ps : Obj.t Player.t) (s : GameState) : GameState :=
  mkState ps (minion s) (started s) (lastHitTime s).
Definition with_minion (m : option Minion.t) (s : GameState) : GameState :=
  mkState (players s) m (started s) (lastHitTime s).

Inductive Inbound : Type :=
| join
| select_char (charIndex : number)
| move (id : string) (x z rot : number)
| start_game
| hit (targetId : string) (sourceId : option string) (damage : number)
| minion_hit (damage : number)
| pickup (id : string) (weapon : string)
| other (type : string).

Record RosterEntry : Type := mkEntry {
  e_id : string;
  e_charIndex : number;
  e_hp : number;
  e_role : Role
}.

Inductive Outbound : Type :=
| msg_init (state : GameState)
| msg_player_join (roster : list RosterEntry)
| msg_player_update (player : Player.t)
| msg_update (id : string) (x z rot : number)
| msg_game_start (state : GameState)
| msg_hit (targetId : string) (hp : number)
| msg_minion_hit (hp : number)
| msg_minion_update (x z hp : number)
| msg_pickup (id : string) (weapon : string)
| msg_game_over (winner reason : string).

Inductive Effect : Type :=
| broadcast (m : Outbound) (without : list string)
| send (to : string) (m : Outbound).

Definition alive (r : Role) (p : Player.t) : bool :=
  Role_eqb (Player.role p) r && ltb zero (Player.hp p).

Definition minionAlive (state : GameState) : bool :=
  match minion state with
  | Some m => ltb zero (Minion.hp m)
  | None => false
  end.

(** [checkWinCondition(room, state)]. *)
Definition checkWinCondition (state : GameState) : list Effect :=
  let aliveRunners :=
    length (filter (alive runner) (Obj.values (players state))) in
  let aliveHunter := find (alive hunter) (Obj.values (players state)) in
  if Nat.eqb aliveRunners 0
  then [broadcast (msg_game_over "Hunter" "Runners Eliminated") []]
  else if negb (defined aliveHunter) && negb (minionAlive state)
       then [broadcast (msg_game_over "Runners" "Hunter & Minion Defeated") []]
       else [].

Definition fresh_player (id : string) : Player.t :=
  Player.mk id zero zero zero runner c100 "none" zero.

Definition fresh_minion : Minion.t := Minion.mk zero zero c500.

Definition initial_state : GameState := mkState [] None false zero.

Definition roster_entry (p : Player.t) : RosterEntry :=
  mkEntry (Player.id p) (Player.charIndex p) (Player.hp p) (Player.role p).

Definition reset (hunterId : option string) (id : string) (p : Player.t)
    : Player.t :=
  let is_hunter :=
    match hunterId with
    | Some h => String.eqb id h
    | None => false
    end in
  Player.with_weapon "none"
    (Player.with_hp c100
       (Player.with_role (if is_hunter then hunter else runner) p)).

Definition reset_player (hunterId : option string) (id : string)
    (ps : Obj.t Player.t) : Obj.t Player.t :=
  Obj.update id (reset hunterId id) ps.

(** [hp -= damage; if (hp < 0) hp = 0]: a NaN is not below 0 and stays. *)
Definition damaged (h damage : number) : number :=
  let h' := sub h damage in
  if ltb h' zero then zero else h'.

Definition hp_of (id : string) (ps : Obj.t Player.t) : number :=
  match Obj.get id ps with
  | Some p => Player.hp p
  | None => zero
  end.

(** [source.hp = Math.min(150, source.hp + 20)] for a source that is a
    hunter. *)
Definition heal_source (sourceId : option string) (ps : Obj.t Player.t)
    : Obj.t Player.t :=
  match sourceId with
  | Some s =>
      match Obj.get s ps with
      | Some source =>
          if Role_eqb (Player.role source) hunter
          then Obj.update s
                 (Player.with_hp (min c150 (add (Player.hp source) c20))) ps
          else ps
      | None => ps
      end
  | None => ps
  end.

(** The switch of [onMessage]; [rnd] is the value of [Math.random()]. *)
Definition handle (rnd : number) (data : Inbound) (conn : string)
    (state : GameState) : GameState * list Effect :=
  match data with
  | join =>
      let state' :=
        with_players (Obj.set conn (fresh_player conn) (players state)) state in
      (state',
       [broadcast
          (msg_player_join (map roster_entry (Obj.values (players state')))) [];
        send conn (msg_init state')])
  | select_char charIndex =>
      match Obj.get conn (players state) with
      | Some _ =>
          let ps := Obj.update conn (Player.with_charIndex charIndex)
                      (players state) in
          (with_players ps state,
           match Obj.get conn ps with
           | Some p => [broadcast (msg_player_update p) []]
           | None => []
           end)
      | None => (state, [])
      end
  | move id x z rot =>
      match Obj.get id (players state) with
      | Some _ =>
          (with_players
             (Obj.update id (Player.with_pos x z rot) (players state)) state,
           [broadcast (msg_update id x z rot) [conn]])
      | None => (state, [])
      end
  | start_game =>
      let playerIds := Obj.keys (players state) in
      if Nat.eqb (length playerIds) 0 then (state, [])
      else
        let hunterId :=
          index_floor playerIds
            (mul rnd (of_Z (Z.of_nat (length playerIds)))) in
        let ps :=
          fold_left (fun ps id => reset_player hunterId id ps)
            (Obj.keys (players state)) (players state) in
        let state' := mkState ps (Some fresh_minion) true (lastHitTime state) in
        (state', [broadcast (msg_game_start state') []])
  | hit targetId sourceId damage =>
      match Obj.get targetId (players state) with
      | Some target =>
          let h := damaged (Player.hp target) damage in
          let ps1 := Obj.update targetId (Player.with_hp h) (players state) in
          let ps2 :=
            if eqb h zero && truthy sourceId then heal_source sourceId ps1
            else ps1 in
          let state' := with_players ps2 state in
          (state',
           broadcast (msg_hit targetId (hp_of targetId ps2)) []
             :: checkWinCondition state')
      | None => (state, [])
      end
  | minion_hit damage =>
      match minion state with
      | Some m =>
          let h := sub (Minion.hp m) damage in
          let m' := Minion.mk (Minion.x m) (Minion.z m) h in
          if leb h zero then
            let state' := with_minion None state in
            (state',
             broadcast (msg_minion_hit h) [] :: checkWinCondition state')
          else
            (with_minion (Some m') state, [broadcast (msg_minion_hit h) []])
      | None => (state, [])
      end
  | pickup id weapon =>
      match Obj.get id (players state) with
      | Some _ =>
          (with_players
             (Obj.update id (Player.with_weapon weapon) (players state)) state,
           [broadcast (msg_pickup id weapon) []])
      | None => (state, [])
      end
  | other _ => (state, [])
  end.

Definition onMessage (rnd : number) (data : Inbound) (conn : string)
    (room : option GameState) : option GameState * list Effect :=
  let state :=
    match room with
    | Some state => state
    | None => initial_state
    end in
  let (state', out) := handle rnd data conn state in
  (Some state', out).

Section Loop.

(** [Math.hypot], as the implementation rounds it. *)
Variable hypot : number -> number -> number.

Definition scan (m : Minion.t) (acc : number * option (string * Player.t))
    (e : string * Player.t) : number * option (string * Player.t) :=
  let (minDist, _) := acc in
  let (k, p) := e in
  if alive runner p then
    let d := hypot (sub (Player.x p) (Minion.x m))
                   (sub (Player.z p) (Minion.z m)) in
    if ltb d minDist then (d, Some (k, p)) else acc
  else acc.

Definition find_nearest (m : Minion.t) (ps : Obj.t Player.t)
    : number * option (string * Player.t) :=
  fold_left (scan m) ps (c9999, None).

(** [d], as the scan computes it for the player [p]. *)
Definition distance (m : Minion.t) (p : Player.t) : number :=
  hypot (sub (Player.x p) (Minion.x m)) (sub (Player.z p) (Minion.z m)).

(** [len], as the loop computes it for the target [p]. *)
Definition len (m : Minion.t) (p : Player.t) : number :=
  let dx := sub (Player.x p) (Minion.x m) in
  let dz := sub (Player.z p) (Minion.z m) in
  sqrt (add (mul dx dx) (mul dz dz)).

(** One run of the interval callback of [onStart]. *)
Definition minionTick (room : option GameState)
    : option GameState * list Effect :=
  match room with
  | None => (room, [])
  | Some state =>
      if negb (started state) then (room, [])
      else
        match minion state with
        | None => (room, [])
        | Some m =>
            let (minDist, nearest) := find_nearest m (players state) in
            let (state', out) :=
              match nearest with
              | Some (k, p) =>
                  let dx := sub (Player.x p) (Minion.x m) in
                  let dz := sub (Player.z p) (Minion.z m) in
                  let len := sqrt (add (mul dx dx) (mul dz dz)) in
                  if ltb zero len then
                    let m' :=
                      Minion.mk (add (Minion.x m) (mul (div dx len) c0_15))
                                (add (Minion.z m) (mul (div dz len) c0_15))
                                (Minion.hp m) in
                    let state1 := with_minion (Some m') state in
                    if ltb minDist c3_5 then
                      let h := damaged (Player.hp p) c0_5 in
                      let state2 :=
                        with_players
                          (Obj.update k (Player.with_hp h) (players state1))
                          state1 in
                      (state2,
                       broadcast (msg_hit (Player.id p) h) []
                         :: checkWinCondition state2)
                    else (state1, [])
                  else (state, [])
              | None => (state, [])
              end in
            (Some state',
             out ++
             match minion state' with
             | Some m' =>
                 [broadcast
                    (msg_minion_update (Minion.x m') (Minion.z m')
                       (Minion.hp m')) []]
             | None => []
             end)
        end
  end.

(** A message, with any value of the draw and of its numbers, or a run of
    the loop. *)
Inductive step : option GameState -> option GameState -> Prop :=
| step_message rnd data conn room :
    step room (fst (onMessage rnd data conn room))
| step_tick room : step room (fst (minionTick room)).

Inductive reachable : option GameState -> Prop :=
| reachable_init : reachable None
| reachable_step room room' :
    reachable room -> step room room' -> reachable room'.

(** A session as the list of its events, and the state it leaves. *)
Inductive Event : Type :=
| message (rnd : number) (data : Inbound) (conn : string)
| tick.

Definition run_event (room : option GameState) (ev : Event)
    : option GameState :=
  match ev with
  | message rnd data conn => fst (onMessage rnd data conn room)
  | tick => fst (minionTick room)
  end.

Definition run (session : list Event) (room : option GameState)
    : option GameState :=
  fold_left run_event session room.

End Loop.

(** An implementation of [Math.hypot] for the examples: the square root
    of the sum of the squares, each operation rounded. *)
Definition plain_hypot (a b : number) : number :=
  sqrt (add (mul a a) (mul b b)).

Definition well_formed (state : GameState) : Prop :=
  NoDup (Obj.keys (players state)).

End B64.


(** ** Sessions over binary64 used as examples *)

(** The join of "a", a hit of damage -Infinity on "a" (its hp is then
    Infinity) and a hit of damage Infinity on "a". *)
Definition b64_session_nan : list B64.Event :=
  [B64.message B64.zero B64.join "a";
   B64.message B64.zero (B64.hit "a" None B64.neg_infinity) "a";
   B64.message B64.zero (B64.hit "a" None B64.infinity) "a"].

(** The room after [b64_session_nan]: the hp of "a" is NaN. *)
Definition b64_lobby_nan : B64.GameState :=
  B64.mkState
    [("a"%string,
      B64.Player.mk "a" B64.zero B64.zero B64.zero runner B64.nan "none"
        B64.zero)]
    None false B64.zero.

(** The joins of "a" and "b", the move of "b" to (1, 0) and the start of
    the game with the draw 0, which makes "a" the hunter. *)
Definition b64_session_moved : list B64.Event :=
  [B64.message B64.zero B64.join "a";
   B64.message B64.zero B64.join "b";
   B64.message B64.zero (B64.move "b" (B64.of_Z 1) B64.zero B64.zero) "b";
   B64.message B64.zero B64.start_game "a"].

Definition b64_runner_moved : B64.Player.t :=
  B64.Player.mk "b" (B64.of_Z 1) B64.zero B64.zero runner B64.c100 "none"
    B64.zero.

(** The room after [b64_session_moved]. *)
Definition b64_game_moved : B64.GameState :=
  B64.mkState
    [("a"%string,
      B64.Player.mk "a" B64.zero B64.zero B64.zero hunter B64.c100 "none"
        B64.zero);
     ("b"%string, b64_runner_moved)]
    (Some B64.fresh_minion) true B64.zero.

(** [b64_session_moved], then a run of the minion loop, which moves the
    minion to (0.15, 0) and leaves "b" at hp 99.5, a hit of damage 99 on
    "b", which leaves it at 0.5, and a hit of damage 3 on "b" by the hunter
    "a", which leaves "b" at 0 and heals "a" to 120. *)
Definition b64_session_played : list B64.Event :=
  b64_session_moved ++
  [B64.tick;
   B64.message B64.zero (B64.hit "b" None (B64.of_Z 99)) "b";
   B64.message B64.zero (B64.hit "b" (Some "a"%string) (B64.of_Z 3)) "a"].

(** The room after [b64_session_played]. *)
Definition b64_game_played : B64.GameState :=
  B64.mkState
    [("a"%string,
      B64.Player.mk "a" B64.zero B64.zero B64.zero hunter (B64.of_Z 120)
        "none" B64.zero);
     ("b"%string,
      B64.Player.mk "b" (B64.of_Z 1) B64.zero B64.zero runner B64.zero "none"
        B64.zero)]
    (Some (B64.Minion.mk B64.c0_15 B64.zero B64.c500)) true B64.zero.

(** The first player, in the order of iteration, among the living runners
    whose computed distance from the minion is the least: no living runner
    before it is as near, and none after it is nearer. *)
Definition b64_first_nearest (hypot : B64.number -> B64.number -> B64.number)
    (m : B64.Minion.t) (ps : Obj.t B64.Player.t) (k : string)
    (p : B64.Player.t) : Prop :=
  exists l1 l2,
    ps = l1 ++ (k, p) :: l2 /\ B64.alive runner p = true /\
    (forall k' p', In (k', p') l1 -> B64.alive runner p' = true ->
       B64.leb (B64.distance hypot m p') (B64.distance hypot m p) = false) /\
    (forall k' p', In (k', p') l2 -> B64.alive runner p' = true ->
       B64.ltb (B64.distance hypot m p') (B64.distance hypot m p) = false).

(** Every hp of the roster is NaN or >= 0, so never below 0. *)
Definition b64_hp_floor (h : B64.number) : Prop :=
  B64.ltb h B64.zero = false /\ (h = B64.nan \/ B64.leb B64.zero h = true).

Definition b64_not_below_zero (ps : Obj.t B64.Player.t) : Prop :=
  Forall (fun p => B64.ltb (B64.Player.hp p) B64.zero = false) (Obj.values ps).

(** * Properties *)

(** ** Numbers *)

Lemma num_lt_true a b : num_lt a b = true <-> a < b.
Proof. unfold num_lt; destruct (Rlt_dec a b); split; intros; auto; discriminate. Qed.

Lemma num_lt_false a b : num_lt a b = false <-> b <= a.
Proof.
  unfold num_lt; destruct (Rlt_dec a b); split; intros; auto; try discriminate; lra.
Qed.

Lemma num_le_true a b : num_le a b = true <-> a <= b.
Proof. unfold num_le; destruct (Rle_dec a b); split; intros; auto; discriminate. Qed.

Lemma num_le_false a b : num_le a b = false <-> b < a.
Proof.
  unfold num_le; destruct (Rle_dec a b); split; intros; auto; try discriminate; lra.
Qed.

Lemma num_eq_true a b : num_eq a b = true <-> a = b.
Proof. unfold num_eq; destruct (Req_dec_T a b); split; intros; auto; discriminate. Qed.

Lemma num_eq_false a b : num_eq a b = false <-> a <> b.
Proof.
  unfold num_eq; destruct (Req_dec_T a b); split; intros; auto; try discriminate.
  contradiction.
Qed.

(** Decides the comparisons of a goal whose numbers are literals. *)
Ltac num_decide :=
  repeat match goal with
  | |- context [num_lt ?a ?b] =>
      first [ replace (num_lt a b) with true
                by (symmetry; apply num_lt_true; lra)
            | replace (num_lt a b) with false
                by (symmetry; apply num_lt_false; lra) ]
  | |- context [num_le ?a ?b] =>
      first [ replace (num_le a b) with true
                by (symmetry; apply num_le_true; lra)
            | replace (num_le a b) with false
                by (symmetry; apply num_le_false; lra) ]
  | |- context [num_eq ?a ?b] =>
      first [ replace (num_eq a b) with true
                by (symmetry; apply num_eq_true; lra)
            | replace (num_eq a b) with false
                by (symmetry; apply num_eq_false; lra) ]
  end.

Lemma damaged_max h d : damaged h d = Rmax 0 (h - d).
Proof.
  unfold damaged, Rmax, num_lt.
  destruct (Rlt_dec (h - d) 0), (Rle_dec 0 (h - d)); lra.
Qed.

Lemma damaged_nonneg h d : 0 <= damaged h d.
Proof. rewrite damaged_max. apply Rmax_l. Qed.

(** ** Objects *)

Section ObjFacts.
Context {V : Type}.
Implicit Types (o : Obj.t V) (k : string) (f : V -> V).

Lemma Obj_keys_update k f o : Obj.keys (Obj.update k f o) = Obj.keys o.
Proof.
  induction o as [|[k' v] o IH]; simpl; auto.
  destruct (String.eqb k k'); simpl; congruence.
Qed.

Lemma Obj_get_update k k' f o :
  Obj.get k' (Obj.update k f o) =
  if String.eqb k' k then option_map f (Obj.get k o) else Obj.get k' o.
Proof.
  induction o as [|[k0 v] o IH]; simpl.
  - now destruct (String.eqb k' k).
  - destruct (String.eqb k k0) eqn:E; simpl.
    + apply String.eqb_eq in E; subst k0.
      destruct (String.eqb k' k); auto.
    + destruct (String.eqb k' k0) eqn:E'.
      * apply String.eqb_eq in E'; subst k0.
        now rewrite String.eqb_sym, E.
      * exact IH.
Qed.

Lemma Obj_get_update_same k f o :
  Obj.get k (Obj.update k f o) = option_map f (Obj.get k o).
Proof. now rewrite Obj_get_update, String.eqb_refl. Qed.

Lemma Obj_get_update_other k k' f o :
  k' <> k -> Obj.get k' (Obj.update k f o) = Obj.get k' o.
Proof.
  intros H. rewrite Obj_get_update.
  destruct (String.eqb k' k) eqn:E; auto.
  apply String.eqb_eq in E; contradiction.
Qed.

Lemma Obj_get_In k v o : Obj.get k o = Some v -> In (k, v) o.
Proof.
  induction o as [|[k' v'] o IH]; simpl; [discriminate|].
  destruct (String.eqb k k') eqn:E.
  - apply String.eqb_eq in E; subst. intros [= ->]; now left.
  - intros H; right; auto.
Qed.

Lemma Obj_get_None k o : Obj.get k o = None <-> ~ In k (Obj.keys o).
Proof.
  induction o as [|[k' v'] o IH]; simpl.
  - tauto.
  - destruct (String.eqb k k') eqn:E.
    + apply String.eqb_eq in E; subst. split; [discriminate | tauto].
    + apply String.eqb_neq in E. rewrite IH. intuition congruence.
Qed.

Lemma Obj_In_get k v o : NoDup (Obj.keys o) -> In (k, v) o -> Obj.get k o = Some v.
Proof.
  induction o as [|[k' v'] o IH]; simpl; [tauto|].
  intros Hnd [H|H].
  - injection H as -> ->. now rewrite String.eqb_refl.
  - inversion Hnd as [|? ? Hk Hnd']; subst.
    destruct (String.eqb k k') eqn:E.
    + apply String.eqb_eq in E; subst k'.
      exfalso; apply Hk. change k with (fst (k, v)). now apply in_map.
    + auto.
Qed.

Lemma Obj_update_absent k f o : Obj.get k o = None -> Obj.update k f o = o.
Proof.
  induction o as [|[k' v'] o IH]; simpl; auto.
  destruct (String.eqb k k'); [discriminate|].
  intros H; now rewrite IH.
Qed.

Lemma Obj_update_app k f o1 o2 :
  ~ In k (Obj.keys o1) ->
  Obj.update k f (o1 ++ o2) = o1 ++ Obj.update k f o2.
Proof.
  induction o1 as [|[k' v'] o1 IH]; simpl; auto.
  intros H. destruct (String.eqb k k') eqn:E.
  - apply String.eqb_eq in E; subst; tauto.
  - rewrite IH; tauto.
Qed.

(** The values after a write are the old ones except for the one written. *)
Lemma Obj_Forall_update (P : V -> Prop) k f o :
  Forall P (Obj.values o) ->
  (forall v, Obj.get k o = Some v -> P (f v)) ->
  Forall P (Obj.values (Obj.update k f o)).
Proof.
  induction o as [|[k' v'] o IH]; simpl; auto.
  intros HF Hf. inversion HF; subst.
  destruct (String.eqb k k') eqn:E; simpl.
  - constructor; auto.
  - constructor; auto.
Qed.

Lemma Obj_keys_insert_index n k v o :
  forall k', In k' (Obj.keys (Obj.insert_index n k v o)) <->
             k' = k \/ In k' (Obj.keys o).
Proof.
  induction o as [|[k0 v0] o IH]; simpl; intros k'.
  - intuition.
  - destruct (Obj.array_index k0) as [m|]; [destruct (n <? m)%N|]; simpl;
      try rewrite IH; intuition.
Qed.

Lemma Obj_NoDup_insert_index n k v o :
  ~ In k (Obj.keys o) -> NoDup (Obj.keys o) ->
  NoDup (Obj.keys (Obj.insert_index n k v o)).
Proof.
  induction o as [|[k0 v0] o IH]; simpl; intros Hk Hnd.
  - constructor; auto.
  - inversion Hnd; subst.
    destruct (Obj.array_index k0) as [m|]; [destruct (n <? m)%N|]; simpl.
    + constructor; simpl; auto.
    + constructor.
      * rewrite Obj_keys_insert_index. intuition.
      * apply IH; auto.
    + constructor; simpl; auto.
Qed.

Lemma Obj_NoDup_set k v o :
  NoDup (Obj.keys o) -> NoDup (Obj.keys (Obj.set k v o)).
Proof.
  intros Hnd. unfold Obj.set.
  destruct (Obj.get k o) eqn:E.
  - now rewrite Obj_keys_update.
  - apply Obj_get_None in E. unfold Obj.define.
    destruct (Obj.array_index k).
    + now apply Obj_NoDup_insert_index.
    + unfold Obj.keys. rewrite map_app. simpl.
      apply NoDup_app; auto.
      * repeat constructor; auto.
      * intros a Ha [<-|[]]; auto.
Qed.

Lemma Obj_values_insert_index (P : V -> Prop) n k v o :
  Forall P (Obj.values o) -> P v ->
  Forall P (Obj.values (Obj.insert_index n k v o)).
Proof.
  induction o as [|[k0 v0] o IH]; simpl; intros HF Hv.
  - constructor; auto.
  - inversion HF; subst.
    destruct (Obj.array_index k0) as [m|]; [destruct (n <? m)%N|]; simpl;
      repeat constructor; auto.
Qed.

Lemma Obj_Forall_set (P : V -> Prop) k v o :
  Forall P (Obj.values o) -> P v -> Forall P (Obj.values (Obj.set k v o)).
Proof.
  intros HF Hv. unfold Obj.set.
  destruct (Obj.get k o) eqn:E.
  - apply Obj_Forall_update; auto.
  - unfold Obj.define. destruct (Obj.array_index k).
    + now apply Obj_values_insert_index.
    + unfold Obj.values. rewrite map_app. apply Forall_app; split; auto.
      simpl. constructor; auto.
Qed.

End ObjFacts.

(** ** Start of a game *)

Lemma fold_reset hunterId pre ps :
  NoDup (Obj.keys (pre ++ ps)) ->
  fold_left (fun ps id => reset_player hunterId id ps) (Obj.keys ps) (pre ++ ps)
  = pre ++ map (fun e => (fst e, reset hunterId (fst e) (snd e))) ps.
Proof.
  revert pre. induction ps as [|[k p] ps IH]; intros pre Hnd; simpl.
  - reflexivity.
  - unfold reset_player at 2. rewrite Obj_update_app.
    + simpl. rewrite String.eqb_refl.
      change (pre ++ (k, reset hunterId k p) :: ps)
        with (pre ++ [(k, reset hunterId k p)] ++ ps).
      rewrite app_assoc, IH.
      * now rewrite <- app_assoc.
      * rewrite <- app_assoc. simpl.
        unfold Obj.keys in *. rewrite map_app in *. exact Hnd.
    + unfold Obj.keys in Hnd. rewrite map_app in Hnd. simpl in Hnd.
      apply NoDup_remove_2 in Hnd. intros H; apply Hnd.
      apply in_or_app; now left.
Qed.

Lemma reset_all hunterId ps :
  NoDup (Obj.keys ps) ->
  fold_left (fun ps id => reset_player hunterId id ps) (Obj.keys ps) ps
  = map (fun e => (fst e, reset hunterId (fst e) (snd e))) ps.
Proof. intros H. exact (fold_reset hunterId [] ps H). Qed.

Lemma random_index (l : list string) rnd :
  0 <= rnd < 1 -> l <> [] ->
  exists h, Obj.index l (floor (rnd * INR (length l))) = Some h /\ In h l.
Proof.
  intros Hr Hl. unfold Obj.index, floor.
  assert (Hn : 0 < INR (length l)).
  { destruct l; [contradiction|]. apply lt_0_INR. simpl; lia. }
  set (x := rnd * INR (length l)).
  assert (Hx : 0 <= x < INR (length l)) by (unfold x; nra).
  clearbody x.
  assert (H0 : (0 <= Zfloor x)%Z) by (apply Zfloor_lub; lra).
  assert (H1 : (Zfloor x < Z.of_nat (length l))%Z).
  { apply lt_IZR. rewrite <- INR_IZR_INZ.
    generalize (Zfloor_bound x); lra. }
  replace (Zfloor x <? 0)%Z with false by (symmetry; apply Z.ltb_ge; lia).
  destruct (nth_error l (Z.to_nat (Zfloor x))) as [h|] eqn:E.
  - exists h; split; auto. eapply nth_error_In; eauto.
  - apply nth_error_None in E. lia.
Qed.

Lemma count_key h (l : list string) :
  NoDup l -> In h l -> length (filter (fun k => String.eqb k h) l) = 1%nat.
Proof.
  induction l as [|k l IH]; simpl; [tauto|].
  intros Hnd Hin. inversion Hnd as [|? ? Hk Hnd']; subst.
  destruct (String.eqb k h) eqn:E.
  - apply String.eqb_eq in E; subst k. simpl. f_equal.
    assert (Hnone : forall l', ~ In h l' ->
              filter (fun k => String.eqb k h) l' = []).
    { induction l' as [|k' l' IH']; simpl; auto. intros Hn.
      destruct (String.eqb k' h) eqn:E'.
      - apply String.eqb_eq in E'; subst; tauto.
      - apply IH'; tauto. }
    now rewrite Hnone.
  - apply String.eqb_neq in E. destruct Hin as [->|Hin]; [contradiction|].
    auto.
Qed.

Lemma count_hunter_reset h ps :
  count_role hunter (map (fun e => (fst e, reset (Some h) (fst e) (snd e))) ps)
  = length (filter (fun k => String.eqb k h) (Obj.keys ps)).
Proof.
  unfold count_role. induction ps as [|[k p] ps IH]; simpl; auto.
  unfold has_role at 1. simpl.
  destruct (String.eqb k h); simpl; auto.
Qed.

Lemma count_roles_total ps :
  (count_role hunter ps + count_role runner ps = length ps)%nat.
Proof.
  unfold count_role. induction ps as [|[k p] ps IH]; simpl; auto.
  assert (H : has_role hunter p = negb (has_role runner p))
    by (unfold has_role; destruct (Player.role p); reflexivity).
  rewrite H. destruct (has_role runner p); simpl; lia.
Qed.

(** The state a start-game leaves on a roster that is not empty. *)
Lemma start_game_nonempty rnd conn state :
  well_formed state -> 0 <= rnd < 1 -> players state <> [] ->
  let state' := fst (handle rnd start_game conn state) in
  Obj.keys (players state') = Obj.keys (players state) /\
  count_role hunter (players state') = 1%nat /\
  count_role runner (players state') = (length (players state) - 1)%nat /\
  Forall (fun p => Player.hp p = 100 /\ Player.weapon p = "none"%string)
    (Obj.values (players state')) /\
  minion state' = Some (Minion.mk 0 0 500) /\
  started state' = true.
Proof.
  intros Hwf Hr Hne. cbv zeta. unfold handle.
  destruct (Nat.eqb (length (Obj.keys (players state))) 0) eqn:E0.
  { apply Nat.eqb_eq in E0. unfold Obj.keys in E0.
    rewrite length_map in E0. destruct (players state); [tauto|discriminate]. }
  assert (Hk : Obj.keys (players state) <> []).
  { destruct (players state); [tauto|discriminate]. }
  destruct (random_index _ rnd Hr Hk) as (h & Hh & Hin).
  rewrite Hh. cbn [fst players minion started].
  rewrite (reset_all _ _ Hwf).
  set (ps' := map _ (players state)).
  assert (Hlen : length ps' = length (players state))
    by (unfold ps'; apply length_map).
  assert (Hhun : count_role hunter ps' = 1%nat).
  { unfold ps'. rewrite count_hunter_reset. now apply count_key. }
  repeat split; auto.
  - unfold ps', Obj.keys. rewrite map_map. reflexivity.
  - generalize (count_roles_total ps'). lia.
  - unfold ps', Obj.values. rewrite map_map. apply Forall_map.
    apply Forall_forall. intros [k p] _. simpl. auto.
Qed.

(** C1: the start-game operation on a session with N >= 1 players gives
    the role of hunter to exactly one player of the roster and the role of
    runner to the other N - 1, sets every hp to 100 and every weapon to
    "none", puts a fresh minion at (0,0) with hp 500 and sets [started];
    on an empty roster it changes nothing (and sends nothing). *)
Theorem start_game_assigns_roles rnd conn state :
  well_formed state -> 0 <= rnd < 1 ->
  let result := handle rnd start_game conn state in
  (players state = [] -> result = (state, [])) /\
  (players state <> [] ->
   Obj.keys (players (fst result)) = Obj.keys (players state) /\
   count_role hunter (players (fst result)) = 1%nat /\
   count_role runner (players (fst result))
     = (length (players state) - 1)%nat /\
   Forall (fun p => Player.hp p = 100 /\ Player.weapon p = "none"%string)
     (Obj.values (players (fst result))) /\
   minion (fst result) = Some (Minion.mk 0 0 500) /\
   started (fst result) = true).
Proof.
  intros Hwf Hr. cbv zeta. split.
  - intros E. unfold handle. now rewrite E.
  - intros Hne. exact (start_game_nonempty rnd conn state Hwf Hr Hne).
Qed.

Lemma start_game_assigns_roles_witness :
  well_formed two_players /\ 0 <= 1 / 2 < 1 /\
  count_role hunter
    (players (fst (handle (1 / 2) start_game "a" two_players))) = 1%nat.
Proof.
  assert (Hwf : well_formed two_players).
  { unfold well_formed; simpl. repeat constructor; simpl; intuition discriminate. }
  assert (Hr : 0 <= 1 / 2 < 1) by lra.
  split; [exact Hwf|]. split; [exact Hr|].
  apply (start_game_assigns_roles (1 / 2) "a" two_players Hwf Hr).
  discriminate.
Defined.

(** ** The win-condition evaluator *)

Lemma Role_eqb_eq a b : Role_eqb a b = true <-> a = b.
Proof. destruct a, b; simpl; split; intros; congruence. Qed.

Lemma alive_true r p :
  alive r p = true <-> Player.role p = r /\ 0 < Player.hp p.
Proof.
  unfold alive. rewrite andb_true_iff, Role_eqb_eq, num_lt_true. tauto.
Qed.

Lemma filter_alive_none r (l : list Player.t) :
  length (filter (alive r) l) = 0%nat <->
  (forall p, In p l -> ~ (Player.role p = r /\ 0 < Player.hp p)).
Proof.
  induction l as [|p l IH]; simpl.
  - split; auto.
  - destruct (alive r p) eqn:E; simpl.
    + split; [discriminate|]. intros H. exfalso.
      apply (H p); [now left | now apply alive_true].
    + rewrite IH. split.
      * intros H q [<-|Hq]; auto.
        rewrite <- alive_true. congruence.
      * intros H q Hq. apply H; now right.
Qed.

Lemma find_alive_none r (l : list Player.t) :
  find (alive r) l = None <->
  (forall p, In p l -> ~ (Player.role p = r /\ 0 < Player.hp p)).
Proof.
  split.
  - intros H p Hp Ha. apply alive_true in Ha.
    rewrite (find_none _ _ H p Hp) in Ha. discriminate.
  - intros H. destruct (find (alive r) l) as [p|] eqn:E; auto.
    apply find_some in E. destruct E as [Hp Ha].
    apply alive_true in Ha. exfalso; exact (H p Hp Ha).
Qed.

Lemma minionAlive_false state : minionAlive state = false <-> no_alive_minion state.
Proof.
  unfold minionAlive, no_alive_minion. destruct (minion state) as [m|].
  - rewrite num_lt_false. split.
    + intros H m' [= <-]. lra.
    + intros H. specialize (H m eq_refl). lra.
  - split; auto. intros _ m; discriminate.
Qed.

(** C3: the evaluator broadcasts game-over for the Hunter, reason "Runners
    Eliminated", whenever no runner has hp > 0, whatever the hunter's hp and
    the minion; otherwise it broadcasts game-over for the Runners, reason
    "Hunter & Minion Defeated", exactly when no hunter has hp > 0 and no
    minion with hp > 0 is present; otherwise it broadcasts nothing. *)
Theorem checkWinCondition_decides state :
  (no_alive_runner state ->
   checkWinCondition state
   = [broadcast (msg_game_over "Hunter" "Runners Eliminated") []]) /\
  (~ no_alive_runner state ->
   no_alive_hunter state /\ no_alive_minion state ->
   checkWinCondition state
   = [broadcast (msg_game_over "Runners" "Hunter & Minion Defeated") []]) /\
  (~ no_alive_runner state ->
   ~ (no_alive_hunter state /\ no_alive_minion state) ->
   checkWinCondition state = []).
Proof.
  unfold checkWinCondition, no_alive_runner, no_alive_hunter.
  unfold alive_runner, alive_hunter.
  rewrite <- (filter_alive_none runner), <- (find_alive_none hunter).
  rewrite <- minionAlive_false.
  destruct (length (filter (alive runner) (Obj.values (players state)))) as [|n];
    simpl.
  - repeat split; auto; intros H; now elim H.
  - split; [discriminate|].
    destruct (find (alive hunter) (Obj.values (players state))) as [p|]; simpl.
    + split; intros _; [intros [H _]; discriminate | auto].
    + destruct (minionAlive state); simpl.
      * split; intros _; [intros [_ H]; discriminate | auto].
      * split; intros _; auto. intros H; elim H; auto.
Qed.

Lemma checkWinCondition_decides_witness :
  ~ no_alive_runner hunter_down /\
  (no_alive_hunter hunter_down /\ no_alive_minion hunter_down) /\
  checkWinCondition hunter_down
  = [broadcast (msg_game_over "Runners" "Hunter & Minion Defeated") []].
Proof.
  assert (H1 : ~ no_alive_runner hunter_down).
  { intros H. apply (H (Player.mk "r" 0 0 0 runner 50 "none" 0)).
    - simpl; auto.
    - split; simpl; [reflexivity | lra]. }
  assert (H2 : no_alive_hunter hunter_down /\ no_alive_minion hunter_down).
  { split.
    - intros p [<-|[<-|[]]] [Hr Hh]; simpl in *; [lra | discriminate].
    - intros m; discriminate. }
  split; [exact H1|]. split; [exact H2|].
  exact (proj1 (proj2 (checkWinCondition_decides hunter_down)) H1 H2).
Defined.

(** ** Hits on the minion *)

(** C6: a minion-hit without a minion changes nothing and broadcasts
    nothing; otherwise the minion's hp is decreased by the damage, without a
    lower clamp, the minion is removed if and only if the resulting hp is
    <= 0, and the broadcasts of the evaluator follow the minion-hit message
    in that case and only in that case. *)
Theorem minion_hit_removes rnd conn state damage :
  (minion state = None ->
   handle rnd (minion_hit damage) conn state = (state, [])) /\
  (forall m, minion state = Some m ->
   let h := Minion.hp m - damage in
   let result := handle rnd (minion_hit damage) conn state in
   players (fst result) = players state /\
   started (fst result) = started state /\
   (h <= 0 ->
    minion (fst result) = None /\
    snd result
    = broadcast (msg_minion_hit h) [] :: checkWinCondition (fst result)) /\
   (0 < h ->
    minion (fst result) = Some (Minion.mk (Minion.x m) (Minion.z m) h) /\
    snd result = [broadcast (msg_minion_hit h) []])).
Proof.
  split.
  - intros E. unfold handle. now rewrite E.
  - intros m E. cbv zeta. unfold handle. rewrite E.
    destruct (num_le (Minion.hp m - damage) 0) eqn:Hle; simpl.
    + apply num_le_true in Hle. repeat split; auto; intros; lra.
    + apply num_le_false in Hle. repeat split; auto; intros; lra.
Qed.

Lemma minion_hit_removes_witness :
  minion minion_low = Some (Minion.mk 0 0 10) /\ 10 - 15 <= 0 /\
  minion (fst (handle 0 (minion_hit 15) "a" minion_low)) = None.
Proof.
  split; [reflexivity|]. split; [lra|].
  apply (proj2 (minion_hit_removes 0 "a" minion_low 15) (Minion.mk 0 0 10) eq_refl).
  simpl; lra.
Defined.

(** ** Hits on players *)

Lemma hp_of_update id k v ps :
  hp_of id (Obj.update k (Player.with_hp v) ps)
  = if String.eqb id k
    then match Obj.get k ps with Some _ => v | None => 0 end
    else hp_of id ps.
Proof.
  unfold hp_of. rewrite Obj_get_update.
  destruct (String.eqb id k); auto.
  destruct (Obj.get k ps); reflexivity.
Qed.

Lemma role_get_update_hp s k v ps :
  option_map Player.role (Obj.get s (Obj.update k (Player.with_hp v) ps))
  = option_map Player.role (Obj.get s ps).
Proof.
  rewrite Obj_get_update. destruct (String.eqb s k) eqn:E; auto.
  apply String.eqb_eq in E; subst. now destruct (Obj.get k ps).
Qed.

Lemma names_hunter_update_hp k v ps sourceId s :
  names_hunter (Obj.update k (Player.with_hp v) ps) sourceId s
  <-> names_hunter ps sourceId s.
Proof.
  unfold names_hunter.
  assert (H : (exists source,
                 Obj.get s (Obj.update k (Player.with_hp v) ps) = Some source /\
                 Player.role source = hunter)
              <-> (exists source,
                 Obj.get s ps = Some source /\ Player.role source = hunter)).
  { generalize (role_get_update_hp s k v ps).
    destruct (Obj.get s (Obj.update k (Player.with_hp v) ps)) as [p|],
             (Obj.get s ps) as [q|]; simpl; intros E; try discriminate.
    - injection E as E. split; intros (source & [= <-] & Hr).
      + exists q; split; congruence.
      + exists p; split; congruence.
    - split; intros (source & Hs & _); discriminate. }
  rewrite H. tauto.
Qed.

Lemma truthy_names ps sourceId s : names_hunter ps sourceId s -> truthy sourceId = true.
Proof. intros (-> & Hs & _). destruct s; [contradiction | reflexivity]. Qed.

(** The heal writes to a hunter the source id names, and to nobody else. *)
Lemma heal_source_names ps sourceId s :
  names_hunter ps sourceId s ->
  heal_source sourceId ps
  = Obj.update s (Player.with_hp (Rmin 150 (hp_of s ps + 20))) ps.
Proof.
  intros (-> & _ & source & Hg & Hr). unfold heal_source, hp_of.
  rewrite Hg, Hr. reflexivity.
Qed.

Lemma heal_source_unnamed ps sourceId :
  ~ (exists s, names_hunter ps sourceId s) ->
  truthy sourceId && true = true -> heal_source sourceId ps = ps.
Proof.
  intros Hn Ht. unfold heal_source.
  destruct sourceId as [s|]; auto.
  destruct (Obj.get s ps) as [source|] eqn:Hg; auto.
  destruct (Role_eqb (Player.role source) hunter) eqn:Hr; auto.
  exfalso. apply Hn. exists s. split; auto. split.
  - intros ->. discriminate.
  - exists source. split; auto. now apply Role_eqb_eq.
Qed.

(** The hp of the players after a hit on a target that exists: [mid] is
    the hp once the damage is applied, and the heal, if it fires, starts
    from it. *)
Lemma hit_hp rnd conn state targetId sourceId damage target :
  Obj.get targetId (players state) = Some target ->
  let h := Rmax 0 (Player.hp target - damage) in
  let mid := fun id =>
    if String.eqb id targetId then h else hp_of id (players state) in
  let state' := fst (handle rnd (hit targetId sourceId damage) conn state) in
  (forall s, h = 0 -> names_hunter (players state) sourceId s ->
   hp_of s (players state') = Rmin 150 (mid s + 20) /\
   forall id, id <> s -> hp_of id (players state') = mid id) /\
  (~ (h = 0 /\ exists s, names_hunter (players state) sourceId s) ->
   forall id, hp_of id (players state') = mid id).
Proof.
  intros Hg h mid state'.
  set (ps1 := Obj.update targetId (Player.with_hp h) (players state)).
  assert (Hmid : forall id, hp_of id ps1 = mid id).
  { intros id. unfold ps1, mid. rewrite hp_of_update, Hg. reflexivity. }
  assert (Hst : players state'
                = if num_eq h 0 && truthy sourceId
                  then heal_source sourceId ps1 else ps1).
  { unfold state', handle. rewrite Hg. cbn [fst players with_players].
    rewrite damaged_max. reflexivity. }
  split.
  - intros s Hh Hn.
    assert (Hn1 : names_hunter ps1 sourceId s)
      by (now apply names_hunter_update_hp).
    rewrite Hst.
    replace (num_eq h 0) with true by (symmetry; now apply num_eq_true).
    rewrite (truthy_names _ _ _ Hn1). simpl.
    rewrite (heal_source_names _ _ _ Hn1).
    destruct Hn1 as (_ & _ & source & Hs & _). split.
    + rewrite hp_of_update, String.eqb_refl, Hs, Hmid. reflexivity.
    + intros id Hid. rewrite hp_of_update.
      apply String.eqb_neq in Hid. rewrite Hid. apply Hmid.
  - intros Hno id. rewrite Hst.
    destruct (num_eq h 0 && truthy sourceId) eqn:E; [|apply Hmid].
    apply andb_true_iff in E. destruct E as [E1 E2].
    apply num_eq_true in E1.
    rewrite heal_source_unnamed; [apply Hmid| |now rewrite E2].
    intros (s & Hs). apply Hno. split; auto.
    exists s. now apply (names_hunter_update_hp targetId h).
Qed.

(** C2: when the target of a hit exists, its hp becomes max(0, hp - damage);
    if that hp is exactly 0 and [sourceId] is present and names a hunter of
    the roster, the hp of that hunter is then increased by 20 and capped at
    150, and no other hp changes.  [mid] is the hp of a player once the
    damage is applied, which for a hunter who is its own target is the hp
    the heal starts from.  The heal depends on the hp after the hit only: a
    hit of damage >= 0 on a target that is already at 0 heals the hunter
    again. *)
Theorem hit_damage_and_heal rnd conn state targetId sourceId damage target :
  Obj.get targetId (players state) = Some target ->
  let h := Rmax 0 (Player.hp target - damage) in
  let mid := fun id =>
    if String.eqb id targetId then h else hp_of id (players state) in
  let state' := fst (handle rnd (hit targetId sourceId damage) conn state) in
  (forall s, h = 0 -> names_hunter (players state) sourceId s ->
   hp_of s (players state') = Rmin 150 (mid s + 20) /\
   forall id, id <> s -> hp_of id (players state') = mid id) /\
  (~ (h = 0 /\ exists s, names_hunter (players state) sourceId s) ->
   forall id, hp_of id (players state') = mid id) /\
  (forall s, Player.hp target = 0 -> 0 <= damage ->
   names_hunter (players state) sourceId s -> s <> targetId ->
   hp_of targetId (players state') = 0 /\
   hp_of s (players state') = Rmin 150 (hp_of s (players state) + 20)).
Proof.
  intros Hg. cbv zeta.
  destruct (hit_hp rnd conn state targetId sourceId damage target Hg)
    as [Hheal Hno].
  cbv zeta in Hheal, Hno.
  split; [exact Hheal|]. split; [exact Hno|].
  intros s H0 Hd Hn Hne.
  assert (Hh : Rmax 0 (Player.hp target - damage) = 0).
  { rewrite H0. apply Rmax_left. lra. }
  destruct (Hheal s Hh Hn) as [H1 H2]. split.
  - rewrite H2 by congruence. now rewrite String.eqb_refl.
  - rewrite H1. apply String.eqb_neq in Hne. now rewrite Hne.
Qed.

Lemma hit_damage_and_heal_witness :
  Obj.get "b" (players runner_low)
  = Some (Player.mk "b" 0 0 0 runner 5 "none" 0) /\
  Rmax 0 (5 - 5) = 0 /\
  names_hunter (players runner_low) (Some "a"%string) "a" /\
  hp_of "a" (players (fst (handle 0 (hit "b" (Some "a"%string) 5) "a" runner_low)))
  = Rmin 150 (100 + 20).
Proof.
  assert (Hg : Obj.get "b" (players runner_low)
               = Some (Player.mk "b" 0 0 0 runner 5 "none" 0)) by reflexivity.
  assert (Hh : Rmax 0 (5 - 5) = 0) by (apply Rmax_left; lra).
  assert (Hn : names_hunter (players runner_low) (Some "a"%string) "a").
  { split; [reflexivity|]. split; [discriminate|].
    exists (Player.mk "a" 0 0 0 hunter 100 "none" 0). split; reflexivity. }
  split; [exact Hg|]. split; [exact Hh|]. split; [exact Hn|].
  exact (proj1 (proj1 (hit_damage_and_heal 0 "a" runner_low "b" (Some "a"%string) 5 _ Hg)
                  "a"%string Hh Hn)).
Defined.

(** ** Invariants of the hp *)

Section HpInvariant.
Variables (P D : number -> Prop).
Hypothesis P_fresh : P 100.
Hypothesis P_damaged : forall h d, P h -> D d -> P (damaged h d).
Hypothesis P_contact : forall h, P h -> P (damaged h 0.5).
Hypothesis P_heal : forall h, P h -> P (Rmin 150 (h + 20)).

Lemma all_hp_update k f ps :
  all_hp P ps ->
  (forall p, Obj.get k ps = Some p -> P (Player.hp p) -> P (Player.hp (f p))) ->
  all_hp P (Obj.update k f ps).
Proof.
  unfold all_hp. induction ps as [|[k' p] ps IH]; simpl; auto.
  intros HF Hf. inversion HF; subst.
  destruct (String.eqb k k') eqn:E; simpl; constructor; auto.
Qed.

Lemma all_hp_get k p ps : all_hp P ps -> Obj.get k ps = Some p -> P (Player.hp p).
Proof.
  unfold all_hp. intros HF Hg. apply Obj_get_In in Hg.
  rewrite Forall_forall in HF. apply HF.
  change p with (snd (k, p)). now apply in_map.
Qed.

Lemma all_hp_reset hunterId ids ps :
  all_hp P ps ->
  all_hp P (fold_left (fun ps id => reset_player hunterId id ps) ids ps).
Proof.
  revert ps. induction ids as [|id ids IH]; simpl; auto.
  intros ps H. apply IH. unfold reset_player.
  apply all_hp_update; auto.
Qed.

Lemma all_hp_heal sourceId ps : all_hp P ps -> all_hp P (heal_source sourceId ps).
Proof.
  intros H. unfold heal_source. destruct sourceId as [s|]; auto.
  destruct (Obj.get s ps) as [source|] eqn:Hg; auto.
  destruct (Role_eqb (Player.role source) hunter); auto.
  apply all_hp_update; auto. intros p _ _. simpl.
  apply P_heal. eapply all_hp_get; eauto.
Qed.

Lemma all_hp_handle rnd data conn state :
  damage_in D data -> all_hp P (players state) ->
  all_hp P (players (fst (handle rnd data conn state))).
Proof.
  intros Hd H.
  destruct data as [|c|id x z r| |tid sid dmg|dmg|id w|ty]; simpl in *.
  - apply (Obj_Forall_set (fun p => P (Player.hp p))); auto.
  - destruct (Obj.get conn (players state)); simpl; auto.
    apply all_hp_update; auto.
  - destruct (Obj.get id (players state)); simpl; auto.
    apply all_hp_update; auto.
  - destruct (Nat.eqb (length (Obj.keys (players state))) 0); simpl; auto.
    now apply all_hp_reset.
  - destruct (Obj.get tid (players state)) as [target|] eqn:Hg; simpl; auto.
    assert (H1 : all_hp P (Obj.update tid
                     (Player.with_hp (damaged (Player.hp target) dmg))
                     (players state))).
    { apply all_hp_update; auto. intros p _ _. simpl.
      apply P_damaged; auto. eapply all_hp_get; eauto. }
    destruct (num_eq _ 0 && truthy sid); auto.
    now apply all_hp_heal.
  - destruct (minion state); simpl; auto.
    destruct (num_le _ 0); simpl; auto.
  - destruct (Obj.get id (players state)); simpl; auto.
    apply all_hp_update; auto.
  - assumption.
Qed.

Lemma find_nearest_get_gen m ps acc k p :
  snd (fold_left (scan m) ps acc) = Some (k, p) ->
  snd acc = Some (k, p) \/ In (k, p) ps.
Proof.
  revert acc. induction ps as [|[k' p'] ps IH]; simpl; auto.
  intros [d n] H. apply IH in H. destruct H as [H|H]; auto.
  unfold scan in H.
  destruct (alive runner p'); auto.
  destruct (num_lt _ d); auto.
  simpl in H. injection H as -> ->. auto.
Qed.

Lemma find_nearest_In m ps d k p :
  find_nearest m ps = (d, Some (k, p)) -> In (k, p) ps.
Proof.
  intros H. destruct (find_nearest_get_gen m ps (9999, None) k p) as [H'|H'];
    auto.
  - unfold find_nearest in H. now rewrite H.
  - discriminate.
Qed.

Lemma all_hp_tick state :
  all_hp P (players state) ->
  match fst (minionTick (Some state)) with
  | Some state' => all_hp P (players state')
  | None => False
  end.
Proof.
  intros H. unfold minionTick.
  destruct (started state); simpl; auto.
  destruct (minion state) as [m|]; simpl; auto.
  destruct (find_nearest m (players state)) as [minDist [[k p]|]] eqn:E;
    simpl; auto.
  destruct (num_lt 0 _); simpl; auto.
  destruct (num_lt minDist 3.5); simpl; auto.
  apply all_hp_update; auto. intros q _ _. simpl.
  apply P_contact. apply find_nearest_In in E.
  unfold all_hp in H. rewrite Forall_forall in H. apply H.
  change p with (snd (k, p)). now apply in_map.
Qed.

Lemma all_hp_reachable allowed room :
  (forall data conn room, allowed data conn room -> damage_in D data) ->
  reachable_with allowed room ->
  match room with
  | Some state => all_hp P (players state)
  | None => True
  end.
Proof.
  intros Hok. induction 1 as [|room room' Hr IH Hs]; auto.
  destruct Hs as [rnd data conn room _ Ha|room].
  - apply Hok in Ha. unfold onMessage. destruct room as [state|].
    + generalize (all_hp_handle rnd data conn state Ha IH).
      destruct (handle rnd data conn state); auto.
    + assert (H0 : all_hp P (players initial_state)) by constructor.
      generalize (all_hp_handle rnd data conn initial_state Ha H0).
      destruct (handle rnd data conn initial_state); auto.
  - destruct room as [state|]; [|exact I].
    generalize (all_hp_tick state IH).
    destruct (fst (minionTick (Some state))); tauto.
Qed.

End HpInvariant.

(** A message or a run of the minion loop from a reachable state. *)
Lemma reachable_message allowed room rnd data conn room' :
  reachable_with allowed room -> 0 <= rnd < 1 -> allowed data conn room ->
  fst (onMessage rnd data conn room) = room' -> reachable_with allowed room'.
Proof.
  intros Hr Hrnd Ha <-. eapply reachable_step; eauto. now constructor.
Qed.

Lemma reachable_tick allowed room room' :
  reachable_with allowed room ->
  fst (minionTick room) = room' -> reachable_with allowed room'.
Proof. intros Hr <-. eapply reachable_step; eauto. constructor. Qed.

Lemma zero_one : 0 <= 0 < 1.
Proof. lra. Qed.

Lemma reachable_lobby_a : reachable (Some lobby_a).
Proof.
  apply (reachable_message _ None 0 join "a");
    [constructor | exact zero_one | exact I | reflexivity].
Qed.

(** ** The example sessions *)

Lemma floor_zero n : floor (0 * INR n) = 0%Z.
Proof. unfold floor. rewrite Rmult_0_l. exact (ZfloorZ 0). Qed.

Lemma sqrt_axis a b : 0 <= a -> b = 0 -> sqrt (a * a + b * b) = a.
Proof.
  intros Ha ->. replace (a * a + 0 * 0) with (a * a) by ring.
  now apply sqrt_square.
Qed.

(** Evaluates a handler on a state whose numbers are literals. *)
Ltac evaluate :=
  repeat (progress (cbn -[INR floor];
                    unfold hypot, damaged, speed;
                    try rewrite floor_zero;
                    try rewrite !sqrt_axis by lra;
                    num_decide)).

Lemma join_a : fst (onMessage 0 join "a" None) = Some lobby_a.
Proof. reflexivity. Qed.

Lemma join_b : fst (onMessage 0 join "b" (Some lobby_a)) = Some two_players.
Proof. reflexivity. Qed.

Lemma move_b :
  fst (onMessage 0 (move "b" 1 0 0) "b" (Some two_players)) = Some lobby_moved.
Proof. reflexivity. Qed.

Lemma start_moved :
  fst (onMessage 0 start_game "a" (Some lobby_moved)) = Some game_moved.
Proof.
  unfold onMessage, handle. evaluate. reflexivity.
Qed.

Lemma start_origin :
  fst (onMessage 0 start_game "a" (Some two_players)) = Some game_origin.
Proof.
  unfold onMessage, handle. evaluate. reflexivity.
Qed.

Lemma move_b_far :
  fst (onMessage 0 (move "b" 10000 0 0) "b" (Some two_players))
  = Some lobby_far.
Proof. reflexivity. Qed.

Lemma start_far :
  fst (onMessage 0 start_game "a" (Some lobby_far)) = Some game_far.
Proof.
  unfold onMessage, handle. evaluate. reflexivity.
Qed.

Lemma rejoin_a :
  fst (onMessage 0 join "a" (Some game_origin)) = Some game_rejoined.
Proof. reflexivity. Qed.

Lemma tick_moved : fst (minionTick (Some game_moved)) = Some game_moved_ticked.
Proof.
  unfold minionTick, find_nearest. evaluate.
  unfold game_moved_ticked, with_players, with_minion, Player.with_hp. cbn.
  repeat f_equal; lra.
Qed.

(** At distance 0 the minion neither moves nor hurts. *)
Lemma tick_origin : fst (minionTick (Some game_origin)) = Some game_origin.
Proof.
  unfold minionTick, find_nearest. evaluate. reflexivity.
Qed.

(** ** Integrality of the hp *)

Lemma half_integer_fresh : is_half_integer 100.
Proof. exists 200%Z. lra. Qed.

Lemma half_integer_damaged h d :
  is_half_integer h -> is_integer d -> is_half_integer (damaged h d).
Proof.
  intros [n ->] [k ->]. unfold damaged.
  destruct (num_lt (IZR n / 2 - IZR k) 0).
  - exists 0%Z. lra.
  - exists (n - 2 * k)%Z. rewrite minus_IZR, mult_IZR. lra.
Qed.

Lemma half_integer_contact h :
  is_half_integer h -> is_half_integer (damaged h 0.5).
Proof.
  intros [n ->]. unfold damaged.
  destruct (num_lt (IZR n / 2 - 0.5) 0).
  - exists 0%Z. lra.
  - exists (n - 1)%Z. rewrite minus_IZR. lra.
Qed.

Lemma half_integer_heal h :
  is_half_integer h -> is_half_integer (Rmin 150 (h + 20)).
Proof.
  intros [n ->]. unfold Rmin. destruct (Rle_dec 150 (IZR n / 2 + 20)).
  - exists 300%Z. lra.
  - exists (n + 40)%Z. rewrite plus_IZR. lra.
Qed.

Lemma not_integer_half : ~ is_integer 99.5.
Proof.
  intros [n Hn].
  assert (H : IZR (2 * n) = IZR 199) by (rewrite mult_IZR; lra).
  apply eq_IZR in H. lia.
Qed.

Lemma reachable_integer_ticked : reachable_integer (Some game_moved_ticked).
Proof.
  apply (reachable_tick _ (Some game_moved)); [|exact tick_moved].
  apply (reachable_message _ (Some lobby_moved) 0 start_game "a");
    [|exact zero_one|exact I|exact start_moved].
  apply (reachable_message _ (Some two_players) 0 (move "b" 1 0 0) "b");
    [|exact zero_one|exact I|exact move_b].
  apply (reachable_message _ (Some lobby_a) 0 join "b");
    [|exact zero_one|exact I|exact join_b].
  apply (reachable_message _ None 0 join "a");
    [constructor|exact zero_one|exact I|exact join_a].
Qed.

(** C10, as stated, fails: after two joins, a move of the runner to (1, 0),
    the start of the game and one run of the minion loop, no message having
    a damage field at all, the runner's hp is 99.5. *)
Lemma hp_integer_fails_after_contact :
  reachable_integer (Some game_moved_ticked) /\
  ~ Forall (fun p => is_integer (Player.hp p))
      (Obj.values (players game_moved_ticked)).
Proof.
  split; [exact reachable_integer_ticked|].
  intros H. rewrite Forall_forall in H.
  apply not_integer_half.
  apply (H (Player.mk "b" 1 0 0 runner 99.5 "none" 0)).
  simpl; auto.
Qed.

Lemma damaged_within h d :
  0 <= h <= 150 -> 0 <= d -> 0 <= damaged h d <= 150.
Proof.
  intros Hh Hd. rewrite damaged_max.
  split; [apply Rmax_l | apply Rmax_lub; lra].
Qed.

Lemma hit_ticked :
  fst (onMessage 0 (hit "b" (Some "a"%string) 7) "a" (Some game_moved_ticked))
  = Some game_moved_hit.
Proof.
  unfold onMessage, handle. evaluate.
  unfold game_moved_hit, with_players, Player.with_hp. cbn.
  repeat f_equal; lra.
Qed.

Lemma is_integer_7 : is_integer 7 /\ 0 <= 7.
Proof. split; [exists 7%Z; reflexivity | lra]. Qed.

Lemma reachable_natural_hit : reachable_natural (Some game_moved_hit).
Proof.
  apply (reachable_message _ (Some game_moved_ticked) 0
           (hit "b" (Some "a"%string) 7) "a");
    [|exact zero_one|exact is_integer_7|exact hit_ticked].
  apply (reachable_tick _ (Some game_moved)); [|exact tick_moved].
  apply (reachable_message _ (Some lobby_moved) 0 start_game "a");
    [|exact zero_one|exact I|exact start_moved].
  apply (reachable_message _ (Some two_players) 0 (move "b" 1 0 0) "b");
    [|exact zero_one|exact I|exact move_b].
  apply (reachable_message _ (Some lobby_a) 0 join "b");
    [|exact zero_one|exact I|exact join_b].
  apply (reachable_message _ None 0 join "a");
    [constructor|exact zero_one|exact I|exact join_a].
Qed.

(** C10, amended: in every state reached by messages whose damage field
    is an integer >= 0, and runs of the minion loop, the hp of every player
    is an integer multiple of 0.5 between 0 and 150.  (The contact damage
    of the minion loop subtracts 0.5; a damage < 0 raises an hp without
    bound.) *)
Theorem hp_half_integer state :
  reachable_natural (Some state) ->
  Forall (fun p => is_half_integer (Player.hp p) /\ 0 <= Player.hp p <= 150)
    (Obj.values (players state)).
Proof.
  intros H.
  apply (all_hp_reachable (fun h => is_half_integer h /\ 0 <= h <= 150)
           (fun d => is_integer d /\ 0 <= d))
    with (allowed := fun data (_ : string) (_ : option GameState) =>
                       damage_in (fun d => is_integer d /\ 0 <= d) data)
         (room := Some state).
  - split; [exact half_integer_fresh | lra].
  - intros h d [Hi Hh] [Hd H0].
    split; [now apply half_integer_damaged | now apply damaged_within].
  - intros h [Hi Hh].
    split; [now apply half_integer_contact | apply damaged_within; lra].
  - intros h [Hi Hh]. split; [now apply half_integer_heal|].
    split; [apply Rmin_glb; lra | apply Rmin_l].
  - intros data _ _ Hd; exact Hd.
  - exact H.
Qed.

Lemma hp_half_integer_witness :
  reachable_natural (Some game_moved_hit) /\
  Forall (fun p => is_half_integer (Player.hp p) /\ 0 <= Player.hp p <= 150)
    (Obj.values (players game_moved_hit)).
Proof.
  split; [exact reachable_natural_hit|].
  exact (hp_half_integer game_moved_hit reachable_natural_hit).
Defined.

(** ** The hunter of a started game *)

Lemma roles_update k f ps :
  (forall p, Player.role (f p) = Player.role p) ->
  roles (Obj.update k f ps) = roles ps.
Proof.
  intros Hf. unfold roles. induction ps as [|[k' p] ps IH]; simpl; auto.
  destruct (String.eqb k k'); simpl; [rewrite Hf | rewrite IH]; reflexivity.
Qed.

Lemma keys_roles ps : Obj.keys ps = map fst (roles ps).
Proof. unfold Obj.keys, roles. now rewrite map_map. Qed.

Lemma count_role_roles r ps :
  count_role r ps = length (filter (fun e => Role_eqb (snd e) r) (roles ps)).
Proof.
  unfold count_role, roles, has_role.
  induction ps as [|[k p] ps IH]; simpl; auto.
  destruct (Role_eqb (Player.role p) r); simpl; auto.
Qed.

Lemma roles_heal sourceId ps : roles (heal_source sourceId ps) = roles ps.
Proof.
  unfold heal_source. destruct sourceId as [s|]; auto.
  destruct (Obj.get s ps); auto.
  destruct (Role_eqb _ hunter); auto.
  now apply roles_update.
Qed.

(** Every message but [join] and [start-game] leaves the roles and the
    flag [started] as they are. *)
Lemma handle_roles rnd data conn state :
  data <> join -> data <> start_game ->
  let state' := fst (handle rnd data conn state) in
  roles (players state') = roles (players state) /\
  started state' = started state.
Proof.
  intros Hj Hs.
  destruct data as [|c|id x z r| |tid sid dmg|dmg|id w|ty]; simpl;
    try congruence.
  - destruct (Obj.get conn (players state)); simpl; auto.
    split; auto. now apply roles_update.
  - destruct (Obj.get id (players state)); simpl; auto.
    split; auto. now apply roles_update.
  - destruct (Obj.get tid (players state)); simpl; auto.
    split; auto.
    destruct (num_eq _ 0 && truthy sid);
      [rewrite roles_heal|]; now apply roles_update.
  - destruct (minion state); simpl; auto.
    destruct (num_le _ 0); simpl; auto.
  - destruct (Obj.get id (players state)); simpl; auto.
    split; auto. now apply roles_update.
  - auto.
Qed.

Lemma tick_roles state :
  exists state',
    fst (minionTick (Some state)) = Some state' /\
    roles (players state') = roles (players state) /\
    started state' = started state.
Proof.
  unfold minionTick.
  destruct (started state) eqn:Est; simpl; [|eauto].
  destruct (minion state) as [m|]; simpl; [|eauto].
  destruct (find_nearest m (players state)) as [minDist [[k p]|]];
    simpl; [|eauto].
  destruct (num_lt 0 _); simpl; [|eauto].
  destruct (num_lt minDist 3.5); simpl; [|eauto].
  eexists; split; [reflexivity|]. simpl. split; auto.
  now apply roles_update.
Qed.

Lemma count_role_update r k f ps :
  (forall p, Obj.get k ps = Some p -> has_role r (f p) = has_role r p) ->
  count_role r (Obj.update k f ps) = count_role r ps.
Proof.
  unfold count_role. induction ps as [|[k' p] ps IH]; simpl; auto.
  destruct (String.eqb k k') eqn:E; intros Hf; simpl.
  - rewrite (Hf p eq_refl). now destruct (has_role r p).
  - destruct (has_role r p); simpl; now rewrite IH.
Qed.

Lemma count_role_insert_index r n k v ps :
  has_role r v = false ->
  count_role r (Obj.insert_index n k v ps) = count_role r ps.
Proof.
  intros Hv. unfold count_role.
  induction ps as [|[k' p] ps IH]; simpl.
  - now rewrite Hv.
  - destruct (Obj.array_index k') as [m|]; [destruct (n <? m)%N|]; simpl;
      rewrite ?Hv; auto.
    destruct (has_role r p); simpl; auto.
Qed.

(** A join replaces a player who is not the hunter, or creates one: the
    number of hunters stays. *)
Lemma count_hunter_join conn ps :
  (forall p, Obj.get conn ps = Some p -> Player.role p <> hunter) ->
  count_role hunter (Obj.set conn (fresh_player conn) ps)
  = count_role hunter ps.
Proof.
  intros Hp. unfold Obj.set.
  destruct (Obj.get conn ps) as [p|] eqn:Hg.
  - apply count_role_update. intros q Hq.
    assert (q = p) by congruence. subst q.
    specialize (Hp p eq_refl). unfold has_role; simpl.
    destruct (Player.role p); [contradiction | reflexivity].
  - unfold Obj.define. destruct (Obj.array_index conn).
    + now apply count_role_insert_index.
    + unfold count_role, Obj.values.
      rewrite map_app, filter_app, length_app. simpl. lia.
Qed.

Lemma keys_reset hunterId ids ps :
  Obj.keys (fold_left (fun ps id => reset_player hunterId id ps) ids ps)
  = Obj.keys ps.
Proof.
  revert ps. induction ids as [|id ids IH]; simpl; auto.
  intros ps. rewrite IH. apply Obj_keys_update.
Qed.

(** The keys of the roster stay distinct. *)
Lemma well_formed_handle rnd data conn state :
  well_formed state -> well_formed (fst (handle rnd data conn state)).
Proof.
  intros Hwf.
  destruct data as [|c|id x z r| |tid sid dmg|dmg|id w|ty];
    try (match goal with
         | |- well_formed (fst (handle _ ?d _ _)) =>
             destruct (handle_roles rnd d conn state) as [Hro _];
               [discriminate | discriminate |];
             unfold well_formed in *; rewrite keys_roles, Hro, <- keys_roles;
             exact Hwf
         end).
  - simpl. now apply Obj_NoDup_set.
  - unfold handle.
    destruct (Nat.eqb (length (Obj.keys (players state))) 0); auto.
    unfold well_formed. cbn [fst players]. now rewrite keys_reset.
Qed.

Lemma well_formed_reachable allowed room :
  reachable_with allowed room ->
  match room with
  | Some state => well_formed state
  | None => True
  end.
Proof.
  induction 1 as [|room room' Hr IH Hs]; [exact I|].
  destruct Hs as [rnd data conn room _ _|room].
  - unfold onMessage. destruct room as [state|].
    + generalize (well_formed_handle rnd data conn state IH).
      destruct (handle rnd data conn state); auto.
    + assert (H0 : well_formed initial_state) by constructor.
      generalize (well_formed_handle rnd data conn initial_state H0).
      destruct (handle rnd data conn initial_state); auto.
  - destruct room as [state|]; [|exact I].
    destruct (tick_roles state) as (state' & -> & Hro & _).
    unfold well_formed in *. rewrite keys_roles, Hro, <- keys_roles.
    exact IH.
Qed.

Lemma one_hunter_handle rnd data conn state :
  0 <= rnd < 1 -> ~ hunter_rejoins data conn (Some state) ->
  one_hunter (Some state) ->
  one_hunter (Some (fst (handle rnd data conn state))).
Proof.
  intros Hr Hn [Hwf Hone].
  destruct data as [|c|id x z r| |tid sid dmg|dmg|id w|ty];
    try (match goal with
         | |- one_hunter (Some (fst (handle _ ?d _ _))) =>
             destruct (handle_roles rnd d conn state) as [Hro Hst];
               [discriminate | discriminate |];
             split;
               [ unfold well_formed in *; rewrite keys_roles, Hro, <- keys_roles;
                 exact Hwf
               | rewrite Hst, count_role_roles, Hro, <- count_role_roles;
                 exact Hone ]
         end).
  - simpl. split.
    + now apply Obj_NoDup_set.
    + simpl. intros Hs. rewrite count_hunter_join; auto.
      intros p Hp Hrole. apply Hn. split; auto.
      exists state, p. auto.
  - assert (Hcase : players state = [] \/ players state <> []).
    { destruct (players state); [now left | right; discriminate]. }
    destruct Hcase as [E|Hne].
    + replace (fst (handle rnd start_game conn state)) with state
        by (unfold handle; now rewrite E).
      split; auto.
    + destruct (start_game_nonempty rnd conn state Hwf Hr Hne)
        as (Hk & Hh & _).
      split; auto. unfold well_formed. rewrite Hk. exact Hwf.
Qed.

Lemma one_hunter_reachable room :
  reachable_keeping_hunter room -> one_hunter room.
Proof.
  induction 1 as [|room room' Hr IH Hs]; [exact I|].
  destruct Hs as [rnd data conn room Hrnd Ha|room].
  - unfold onMessage. destruct room as [state|].
    + generalize (one_hunter_handle rnd data conn state Hrnd Ha IH).
      destruct (handle rnd data conn state); auto.
    + assert (H0 : one_hunter (Some initial_state)).
      { split; [constructor | discriminate]. }
      assert (Ha0 : ~ hunter_rejoins data conn (Some initial_state)).
      { intros (_ & s & p & [= <-] & Hg & _). discriminate. }
      generalize (one_hunter_handle rnd data conn initial_state Hrnd Ha0 H0).
      destruct (handle rnd data conn initial_state); auto.
  - destruct room as [state|]; [|exact I].
    destruct (tick_roles state) as (state' & -> & Hro & Hst).
    destruct IH as [Hwf Hone]. split.
    + unfold well_formed in *. rewrite keys_roles, Hro, <- keys_roles.
      exact Hwf.
    + rewrite Hst, count_role_roles, Hro, <- count_role_roles. exact Hone.
Qed.

Lemma reachable_game_origin allowed :
  allowed join "a"%string None ->
  allowed join "b"%string (Some lobby_a) ->
  allowed start_game "a"%string (Some two_players) ->
  reachable_with allowed (Some game_origin).
Proof.
  intros Ha Hb Hs.
  apply (reachable_message _ (Some two_players) 0 start_game "a");
    [|exact zero_one|exact Hs|exact start_origin].
  apply (reachable_message _ (Some lobby_a) 0 join "b");
    [|exact zero_one|exact Hb|exact join_b].
  apply (reachable_message _ None 0 join "a");
    [constructor|exact zero_one|exact Ha|exact join_a].
Qed.

(** C5, as stated, fails: once "a" and "b" have joined and the game has
    started with "a" as the hunter, a second join of "a" leaves a started
    session in which nobody is the hunter. *)
Lemma one_hunter_fails_on_rejoin :
  reachable (Some game_rejoined) /\
  started game_rejoined = true /\
  count_role hunter (players game_rejoined) = 0%nat.
Proof.
  split; [|split; reflexivity].
  apply (reachable_message _ (Some game_origin) 0 join "a");
    [|exact zero_one|exact I|exact rejoin_a].
  apply reachable_game_origin; exact I.
Qed.

(** C5, amended: in every state with [started] that the session reaches
    without a join from the connection whose player holds the role of
    hunter, exactly one player is the hunter; every other operation,
    a join from any other connection included, preserves this. *)
Theorem exactly_one_hunter state :
  reachable_keeping_hunter (Some state) -> started state = true ->
  count_role hunter (players state) = 1%nat.
Proof.
  intros H Hs. destruct (one_hunter_reachable _ H) as [_ Hone]. auto.
Qed.

Lemma reachable_keeping_game_origin : reachable_keeping_hunter (Some game_origin).
Proof.
  apply reachable_game_origin.
  - intros (_ & s & p & Hroom & _). discriminate.
  - intros (_ & s & p & [= <-] & Hg & _). discriminate.
  - intros (Hj & _). discriminate.
Qed.

Lemma exactly_one_hunter_witness :
  reachable_keeping_hunter (Some game_origin) /\
  started game_origin = true /\
  count_role hunter (players game_origin) = 1%nat.
Proof.
  split; [exact reachable_keeping_game_origin|]. split; [reflexivity|].
  exact (exactly_one_hunter game_origin reachable_keeping_game_origin eq_refl).
Defined.

(** ** Sequences of hits *)

Lemma bounded_apply_hit state e :
  0 <= damage e ->
  bounded_hp (players state) -> bounded_hp (players (apply_hit state e)).
Proof.
  intros Hd H. unfold apply_hit, bounded_hp.
  apply (all_hp_handle (fun h => 0 <= h <= 150) (fun d => 0 <= d));
    [ lra | intros h d Hh H0; now apply damaged_within
    | intros h Hh; split; [apply Rmin_glb; lra | apply Rmin_l]
    | exact Hd | exact H ].
Qed.

Lemma bounded_apply_hits es : forall state,
  Forall (fun e => 0 <= damage e) es ->
  bounded_hp (players state) -> bounded_hp (players (apply_hits es state)).
Proof.
  induction es as [|e es IH]; simpl; auto.
  intros state Hd H. apply Forall_cons_iff in Hd. destruct Hd as [Hd Hes].
  apply IH; auto. now apply bounded_apply_hit.
Qed.

Lemma hp_of_bounded id ps : bounded_hp ps -> 0 <= hp_of id ps <= 150.
Proof.
  intros H. unfold hp_of. destruct (Obj.get id ps) as [p|] eqn:Hg; [|lra].
  exact (all_hp_get (fun h => 0 <= h <= 150) id p ps H Hg).
Qed.

(** One hit of damage >= 0 on a session whose hp are between 0 and 150. *)
Lemma hit_monotone state e id :
  bounded_hp (players state) -> 0 <= damage e ->
  0 <= hp_of id (players (apply_hit state e)) <= 150 /\
  (~ heals e state id ->
   hp_of id (players (apply_hit state e)) <= hp_of id (players state)).
Proof.
  intros Hb Hd. split.
  { apply hp_of_bounded. now apply bounded_apply_hit. }
  intros Hnh. unfold apply_hit.
  destruct (Obj.get (targetId e) (players state)) as [target|] eqn:Hg.
  2:{ unfold handle. rewrite Hg. simpl. lra. }
  destruct (hit_hp 0 EmptyString state (targetId e) (sourceId e) (damage e)
              target Hg) as [Hheal Hno].
  cbv zeta in Hheal, Hno.
  assert (Ht : 0 <= Player.hp target <= 150)
    by exact (all_hp_get (fun h => 0 <= h <= 150) _ _ _ Hb Hg).
  assert (Hh : Rmax 0 (Player.hp target - damage e) <= Player.hp target).
  { apply Rmax_lub; lra. }
  assert (Hmid : (if String.eqb id (targetId e)
                  then Rmax 0 (Player.hp target - damage e)
                  else hp_of id (players state))
                 <= hp_of id (players state)).
  { destruct (String.eqb id (targetId e)) eqn:E; [|lra].
    apply String.eqb_eq in E. subst id. unfold hp_of at 1. now rewrite Hg. }
  destruct (classic (Rmax 0 (Player.hp target - damage e) = 0 /\
                     exists s, names_hunter (players state) (sourceId e) s))
    as [[H0 [s Hs]]|Hnone].
  - destruct (Hheal s H0 Hs) as [_ Hother].
    rewrite Hother; [exact Hmid|].
    intros ->. apply Hnh. split; [exact Hs|]. exists target. auto.
  - rewrite (Hno Hnone). exact Hmid.
Qed.

(** The hp of a hunter after a hit that heals it. *)
Lemma hit_healed state e id :
  heals e state id ->
  hp_of id (players (apply_hit state e))
  = Rmin 150 ((if String.eqb id (targetId e) then 0
               else hp_of id (players state)) + 20).
Proof.
  intros (Hs & target & Hg & H0). unfold apply_hit.
  destruct (hit_hp 0 EmptyString state (targetId e) (sourceId e) (damage e)
              target Hg) as [Hheal _].
  cbv zeta in Hheal.
  rewrite (proj1 (Hheal id H0 Hs)), H0. reflexivity.
Qed.

(** C9, as stated, fails: the hunter "a" at hp 100 who hits the runner
    "b" from hp 5 to 0 is healed to 120, and a hit of damage -10 on "b"
    raises its hp from 5 to 15. *)
Lemma hit_raises_hp :
  hp_of "a" (players runner_low)
  < hp_of "a" (players
       (apply_hits [mkHit "b" (Some "a"%string) 5] runner_low)) /\
  hp_of "b" (players runner_low)
  < hp_of "b" (players (apply_hits [mkHit "b" None (-10)] runner_low)).
Proof.
  split.
  - unfold apply_hits, apply_hit, handle. evaluate.
    unfold Rmin. destruct (Rle_dec 150 (100 + 20)); lra.
  - unfold apply_hits, apply_hit, handle. evaluate. lra.
Qed.

(** C9, amended: along every sequence of hit events whose damage is >= 0,
    applied to a session whose hp are between 0 and 150, the hp of a
    player after an event is between 0 and 150; it is less than or equal to
    its hp before the event unless the event heals that player (the player
    is the hunter the source id names and the target is left at hp 0); and
    when the event heals that player its hp becomes min(150, h + 20), where
    h is its hp before the event, or 0 if the hunter is itself the target
    of the event. *)
Theorem hits_never_raise_hp es state pre e post id :
  bounded_hp (players state) ->
  Forall (fun e => 0 <= damage e) es ->
  es = pre ++ e :: post ->
  let before := apply_hits pre state in
  let after := apply_hit before e in
  0 <= hp_of id (players after) <= 150 /\
  (~ heals e before id ->
   hp_of id (players after) <= hp_of id (players before)) /\
  (heals e before id ->
   hp_of id (players after)
   = Rmin 150 ((if String.eqb id (targetId e) then 0
                else hp_of id (players before)) + 20)).
Proof.
  intros Hb Hd -> before after.
  apply Forall_app in Hd. destruct Hd as [Hpre He].
  apply Forall_cons_iff in He. destruct He as [He _].
  assert (Hm : 0 <= hp_of id (players after) <= 150 /\
               (~ heals e before id ->
                hp_of id (players after) <= hp_of id (players before))).
  { apply hit_monotone; [now apply bounded_apply_hits | exact He]. }
  split; [apply Hm|]. split; [apply Hm|].
  apply hit_healed.
Qed.

Lemma bounded_runner_low : bounded_hp (players runner_low).
Proof. repeat constructor; simpl; lra. Qed.

Lemma hits_low_down :
  apply_hits [mkHit "b" (Some "a"%string) 3; mkHit "b" (Some "a"%string) 5]
    runner_low
  = runner_down.
Proof.
  unfold apply_hits, apply_hit, handle. evaluate.
  unfold runner_down, with_players, Player.with_hp. cbn.
  assert (H : Rmin 150 (100 + 20) = 120)
    by (unfold Rmin; destruct (Rle_dec 150 (100 + 20)); lra).
  repeat f_equal; try lra.
Qed.

Lemma heals_runner_down :
  heals (mkHit "a" (Some "a"%string) 200) runner_down "a".
Proof.
  split.
  - split; [reflexivity|]. split; [discriminate|].
    exists (Player.mk "a" 0 0 0 hunter 120 "none" 0). split; reflexivity.
  - exists (Player.mk "a" 0 0 0 hunter 120 "none" 0).
    split; [reflexivity|]. simpl. apply Rmax_left. lra.
Qed.

Lemma hits_never_raise_hp_witness :
  bounded_hp (players runner_low) /\
  Forall (fun e => 0 <= damage e) hits_low /\
  heals (mkHit "a" (Some "a"%string) 200) runner_down "a" /\
  0 <= hp_of "a" (players (apply_hits hits_low runner_low)) <= 150 /\
  hp_of "a" (players (apply_hits hits_low runner_low)) = Rmin 150 (0 + 20).
Proof.
  assert (Hd : Forall (fun e => 0 <= damage e) hits_low).
  { repeat constructor; simpl; lra. }
  assert (Hh : heals (mkHit "a" (Some "a"%string) 200)
                 (apply_hits
                    [mkHit "b" (Some "a"%string) 3;
                     mkHit "b" (Some "a"%string) 5] runner_low) "a").
  { rewrite hits_low_down. exact heals_runner_down. }
  split; [exact bounded_runner_low|]. split; [exact Hd|].
  split; [exact heals_runner_down|].
  destruct (hits_never_raise_hp hits_low runner_low
              [mkHit "b" (Some "a"%string) 3; mkHit "b" (Some "a"%string) 5]
              (mkHit "a" (Some "a"%string) 200) [] "a"
              bounded_runner_low Hd eq_refl) as (H0 & _ & Hheal).
  split; [exact H0 | exact (Hheal Hh)].
Defined.

(** ** The minion loop *)

Ltac splits := repeat match goal with |- _ /\ _ => split end.

Lemma hypot_dist m p :
  hypot (Player.x p - Minion.x m) (Player.z p - Minion.z m) = dist m p.
Proof. reflexivity. Qed.

Lemma alive_runner_true p : alive runner p = true <-> alive_runner p.
Proof. apply alive_true. Qed.

Lemma scan_alive m (d : number) n k p :
  alive_runner p -> dist m p < d -> scan m (d, n) (k, p) = (dist m p, Some (k, p)).
Proof.
  intros Ha Hd. unfold scan.
  replace (alive runner p) with true by (symmetry; now apply alive_runner_true).
  rewrite hypot_dist.
  replace (num_lt (dist m p) d) with true by (symmetry; now apply num_lt_true).
  reflexivity.
Qed.

Lemma scan_skip m (d : number) n k p :
  (alive_runner p -> d <= dist m p) -> scan m (d, n) (k, p) = (d, n).
Proof.
  intros H. unfold scan. destruct (alive runner p) eqn:Ha; auto.
  apply alive_runner_true in Ha. rewrite hypot_dist.
  replace (num_lt (dist m p) d) with false
    by (symmetry; apply num_lt_false; auto).
  reflexivity.
Qed.

Lemma scan_cases m (d : number) n k p :
  (alive_runner p /\ dist m p < d /\
   scan m (d, n) (k, p) = (dist m p, Some (k, p))) \/
  ((alive_runner p -> d <= dist m p) /\ scan m (d, n) (k, p) = (d, n)).
Proof.
  destruct (alive runner p) eqn:Ha.
  - apply alive_runner_true in Ha.
    destruct (Rlt_dec (dist m p) d) as [Hlt|Hge].
    + left. splits; auto. now apply scan_alive.
    + right. split; [intros _; lra|]. apply scan_skip. intros _; lra.
  - right.
    assert (Hn : ~ alive_runner p)
      by (rewrite <- alive_runner_true; congruence).
    split; [tauto|]. apply scan_skip. tauto.
Qed.

(** What the scan leaves in [minDist] and [nearest]. *)
Lemma scan_fold m ps : forall (d0 : number) n0,
  (fold_left (scan m) ps (d0, n0) = (d0, n0) /\
   forall k p, In (k, p) ps -> alive_runner p -> d0 <= dist m p) \/
  (exists l1 k p l2,
     ps = l1 ++ (k, p) :: l2 /\
     fold_left (scan m) ps (d0, n0) = (dist m p, Some (k, p)) /\
     alive_runner p /\ dist m p < d0 /\
     (forall k' p', In (k', p') l1 -> alive_runner p' -> dist m p < dist m p') /\
     (forall k' p', In (k', p') l2 -> alive_runner p' -> dist m p <= dist m p')).
Proof.
  induction ps as [|[k0 p0] ps IH]; intros d0 n0; cbn [fold_left].
  - left. split; auto. intros k p [].
  - destruct (scan_cases m d0 n0 k0 p0) as [(Ha & Hlt & E)|(Hge & E)];
      rewrite E.
    + destruct (IH (dist m p0) (Some (k0, p0)))
        as [(E' & Hall)|(l1 & k & p & l2 & Hps & E' & Hp & Hd & H1 & H2)];
        rewrite E'.
      * right. exists [], k0, p0, ps. splits; auto.
        intros k' p' [].
      * right. exists ((k0, p0) :: l1), k, p, l2. subst ps.
        splits; auto; try lra.
        intros k' p' [[= <- <-]|Hin] Ha'; [lra | eauto].
    + destruct (IH d0 n0)
        as [(E' & Hall)|(l1 & k & p & l2 & Hps & E' & Hp & Hd & H1 & H2)];
        rewrite E'.
      * left. split; auto.
        intros k p [[= <- <-]|Hin] Ha; auto. eauto.
      * right. exists ((k0, p0) :: l1), k, p, l2. subst ps.
        splits; auto.
        intros k' p' [[= <- <-]|Hin] Ha'; [specialize (Hge Ha'); lra | eauto].
Qed.

Lemma find_nearest_some m ps d k p :
  find_nearest m ps = (d, Some (k, p)) ->
  first_nearest m ps k p /\ d = dist m p /\ dist m p < 9999.
Proof.
  unfold find_nearest. intros H.
  destruct (scan_fold m ps 9999 None)
    as [(E & _)|(l1 & k' & p' & l2 & Hps & E & Hp & Hd & H1 & H2)];
    pose proof (eq_trans (eq_sym H) E) as E2.
  - discriminate.
  - injection E2 as -> -> ->. splits; auto.
    exists l1, l2. splits; auto.
Qed.




Lemma first_nearest_origin :
  first_nearest fresh_minion (players game_origin) "b" runner_origin.
Proof.
  exists [("a"%string, Player.mk "a" 0 0 0 hunter 100 "none" 0)], [].
  splits; try reflexivity.
  - split; simpl; [reflexivity | lra].
  - intros k' p' [[= <- <-]|[]] [Hr _]. discriminate.
  - intros k' p' [].
Qed.

Lemma dist_origin : dist fresh_minion runner_origin = 0.
Proof.
  unfold dist, Rsqr. simpl.
  replace ((0 - 0) * (0 - 0) + (0 - 0) * (0 - 0)) with 0 by ring.
  exact sqrt_0.
Qed.

(** C7, as stated, fails at the distance 0: in the game started by "a"
    and "b" without a move, the runner "b" and the minion are both at
    (0, 0); "b" is the nearest living runner, at a distance 0 < 3.5, and a
    run of the loop leaves its hp at 100 (and the whole state as it is). *)
Lemma no_damage_at_distance_zero :
  reachable (Some game_origin) /\
  started game_origin = true /\
  minion game_origin = Some fresh_minion /\
  first_nearest fresh_minion (players game_origin) "b" runner_origin /\
  dist fresh_minion runner_origin < 3.5 /\
  fst (minionTick (Some game_origin)) = Some game_origin /\
  hp_of "b" (players game_origin) <> Rmax 0 (Player.hp runner_origin - 0.5).
Proof.
  splits; try reflexivity.
  - apply reachable_game_origin; exact I.
  - exact first_nearest_origin.
  - rewrite dist_origin. lra.
  - exact tick_origin.
  - unfold hp_of. cbn. rewrite Rmax_right by lra. intros H. lra.
Qed.

Lemma well_formed_game_moved : well_formed game_moved.
Proof.
  unfold well_formed; simpl. repeat constructor; simpl; intuition discriminate.
Qed.

Lemma first_nearest_far :
  first_nearest fresh_minion (players game_far) "b" runner_far.
Proof.
  exists [("a"%string, Player.mk "a" 0 0 0 hunter 100 "none" 0)], [].
  splits; try reflexivity.
  - split; simpl; [reflexivity | lra].
  - intros k' p' [[= <- <-]|[]] [Hr _]. discriminate.
  - intros k' p' [].
Qed.

Lemma tick_far :
  snd (find_nearest fresh_minion (players game_far)) = None /\
  fst (minionTick (Some game_far)) = Some game_far.
Proof.
  unfold minionTick, find_nearest. evaluate. split; reflexivity.
Qed.

(** C8, against the comment "Find nearest runner" of the loop: the scan
    starts from [minDist = 9999], so a living runner that is 9999 units
    away or more is never the target.  In [game_far], reached by two joins,
    a move and the start of the game, the runner "b" is the first living
    runner at the least distance, at (10000, 0) with the minion at (0, 0):
    the scan leaves [nearest] empty and the run of the loop leaves the
    minion where it is. *)
Lemma far_runner_is_not_targeted :
  reachable (Some game_far) /\
  started game_far = true /\
  minion game_far = Some fresh_minion /\
  first_nearest fresh_minion (players game_far) "b" runner_far /\
  snd (find_nearest fresh_minion (players game_far)) = None /\
  fst (minionTick (Some game_far)) = Some game_far.
Proof.
  splits; try reflexivity.
  - apply (reachable_message _ (Some lobby_far) 0 start_game "a");
      [|exact zero_one|exact I|exact start_far].
    apply (reachable_message _ (Some two_players) 0 (move "b" 10000 0 0) "b");
      [|exact zero_one|exact I|exact move_b_far].
    apply (reachable_message _ (Some lobby_a) 0 join "b");
      [|exact zero_one|exact I|exact join_b].
    exact reachable_lobby_a.
  - exact first_nearest_far.
  - exact (proj1 tick_far).
  - exact (proj2 tick_far).
Qed.

(** ** Lookups after a write *)

Section ObjSetFacts.
Context {V : Type}.
Implicit Types (o : Obj.t V) (k : string).

Lemma Obj_get_insert_index n k k' (v : V) o :
  Obj.get k o = None ->
  Obj.get k' (Obj.insert_index n k v o)
  = if String.eqb k' k then Some v else Obj.get k' o.
Proof.
  induction o as [|[k0 v0] o IH]; simpl.
  - reflexivity.
  - destruct (String.eqb k k0) eqn:Ek; [discriminate|]. intros Hn.
    destruct (Obj.array_index k0) as [m|]; [destruct (n <? m)%N|]; simpl; auto.
    rewrite (IH Hn).
    destruct (String.eqb k' k0) eqn:E0; auto.
    apply String.eqb_eq in E0. subst k0.
    now rewrite String.eqb_sym, Ek.
Qed.

Lemma Obj_get_app_new k k' (v : V) o :
  Obj.get k o = None ->
  Obj.get k' (o ++ [(k, v)])
  = if String.eqb k' k then Some v else Obj.get k' o.
Proof.
  induction o as [|[k0 v0] o IH]; simpl.
  - reflexivity.
  - destruct (String.eqb k k0) eqn:Ek; [discriminate|]. intros Hn.
    rewrite (IH Hn).
    destruct (String.eqb k' k0) eqn:E0; auto.
    apply String.eqb_eq in E0. subst k0.
    now rewrite String.eqb_sym, Ek.
Qed.

(** [o[k] = v] and then a read. *)
Lemma Obj_get_set k k' (v : V) o :
  Obj.get k' (Obj.set k v o)
  = if String.eqb k' k then Some v else Obj.get k' o.
Proof.
  unfold Obj.set. destruct (Obj.get k o) as [v0|] eqn:Hg.
  - rewrite Obj_get_update, Hg. reflexivity.
  - unfold Obj.define. destruct (Obj.array_index k).
    + now apply Obj_get_insert_index.
    + now apply Obj_get_app_new.
Qed.

Lemma Obj_length_insert_index n k (v : V) o :
  length (Obj.insert_index n k v o) = S (length o).
Proof.
  induction o as [|[k0 v0] o IH]; simpl; auto.
  destruct (Obj.array_index k0) as [m|]; [destruct (n <? m)%N|]; simpl; auto.
Qed.

Lemma Obj_keys_set_new k (v : V) o :
  Obj.get k o = None ->
  length (Obj.set k v o) = S (length o) /\
  forall k', In k' (Obj.keys (Obj.set k v o)) <-> k' = k \/ In k' (Obj.keys o).
Proof.
  intros Hg. unfold Obj.set. rewrite Hg. unfold Obj.define.
  destruct (Obj.array_index k) as [n|].
  - split; [apply Obj_length_insert_index | apply Obj_keys_insert_index].
  - split.
    + rewrite length_app. simpl. lia.
    + intros k'. unfold Obj.keys. rewrite map_app, in_app_iff. simpl.
      intuition.
Qed.

Lemma Obj_keys_set_old k (v v0 : V) o :
  Obj.get k o = Some v0 -> Obj.keys (Obj.set k v o) = Obj.keys o.
Proof.
  intros Hg. unfold Obj.set. rewrite Hg. apply Obj_keys_update.
Qed.

End ObjSetFacts.

(** ** Joins *)

(** X1: after a join from a connection that is not named ["__proto__"],
    the connection's player is the fresh one (a runner at the origin with
    hp 100, weapon "none" and character 0, whatever it was before), every
    other player is as before, and so are the minion, the flag [started]
    and [lastHitTime]. *)
Theorem join_installs_fresh_player rnd conn state :
  conn <> "__proto__"%string ->
  let state' := fst (handle rnd join conn state) in
  Obj.get conn (players state') = Some (fresh_player conn) /\
  (forall k, k <> conn ->
     Obj.get k (players state') = Obj.get k (players state)) /\
  minion state' = minion state /\
  started state' = started state /\
  lastHitTime state' = lastHitTime state.
Proof.
  intros _.
  cbv zeta. cbn [handle fst players with_players minion started lastHitTime].
  split; [|split; [|auto]].
  - now rewrite Obj_get_set, String.eqb_refl.
  - intros k Hk. rewrite Obj_get_set.
    apply String.eqb_neq in Hk. now rewrite Hk.
Qed.

Lemma not_proto_b : "b"%string <> "__proto__"%string.
Proof. discriminate. Qed.

Lemma join_installs_fresh_player_witness :
  "b"%string <> "__proto__"%string /\
  Obj.get "b" (players (fst (handle 0 join "b" game_moved_hit)))
  = Some (fresh_player "b") /\
  Obj.get "a" (players (fst (handle 0 join "b" game_moved_hit)))
  = Obj.get "a" (players game_moved_hit).
Proof.
  split; [exact not_proto_b|].
  destruct (join_installs_fresh_player 0 "b" game_moved_hit not_proto_b)
    as (H1 & H2 & _).
  split; [exact H1|]. apply H2. discriminate.
Defined.

(** X2: in a session that no connection named ["__proto__"] has joined, a
    join from a connection that has a player leaves the order of the roster
    as it is, and a join from a new connection that is not named
    ["__proto__"] adds exactly that key and one player.  In both cases the
    roster that is broadcast has one entry per player of the new state, and
    the snapshot goes to the joining connection only. *)
Theorem join_roster rnd conn state :
  no_proto state -> conn <> "__proto__"%string ->
  let state' := fst (handle rnd join conn state) in
  (forall p, Obj.get conn (players state) = Some p ->
     Obj.keys (players state') = Obj.keys (players state)) /\
  (Obj.get conn (players state) = None ->
     length (players state') = S (length (players state)) /\
     forall k, In k (Obj.keys (players state')) <->
               k = conn \/ In k (Obj.keys (players state))) /\
  no_proto state' /\
  exists roster,
    snd (handle rnd join conn state)
    = [broadcast (msg_player_join roster) []; send conn (msg_init state')] /\
    map e_id roster = map Player.id (Obj.values (players state')) /\
    map e_hp roster = map Player.hp (Obj.values (players state')).
Proof.
  intros Hnp Hc.
  cbv zeta. cbn [handle fst snd players with_players].
  split; [|split; [|split]].
  - intros p Hp. eapply Obj_keys_set_old; eauto.
  - intros Hn. now apply Obj_keys_set_new.
  - unfold no_proto, with_players. cbn [players]. rewrite Obj_get_set.
    destruct (String.eqb "__proto__" conn) eqn:E; [|exact Hnp].
    apply String.eqb_eq in E. now elim Hc.
  - eexists. split; [reflexivity|]. rewrite !map_map. split; reflexivity.
Qed.

Lemma join_roster_witness :
  no_proto lobby_a /\ "b"%string <> "__proto__"%string /\
  Obj.get "b" (players lobby_a) = None /\
  length (players (fst (handle 0 join "b" lobby_a))) = 2%nat.
Proof.
  split; [reflexivity|]. split; [exact not_proto_b|]. split; [reflexivity|].
  exact (proj1 (proj1 (proj2 (join_roster 0 "b" lobby_a eq_refl not_proto_b))
                  eq_refl)).
Defined.

(** ** Writes to one player *)

(** X3: in a session that no connection named ["__proto__"] has joined, a
    move for an id that is not in the roster and is not a name that the
    roster can inherit changes nothing and sends nothing.  A move for an id
    of the roster overwrites the position and the rotation of that player,
    whoever sends it, and nothing else: the other fields of the player, the
    other players, the order of the roster, the minion and [started] stay,
    and the update is broadcast to every connection but the sender. *)
Theorem move_writes_position rnd conn state id x z rot :
  no_proto state ->
  (Obj.get id (players state) = None -> inherited id = false ->
   handle rnd (move id x z rot) conn state = (state, [])) /\
  (forall p, Obj.get id (players state) = Some p ->
   let result := handle rnd (move id x z rot) conn state in
   Obj.get id (players (fst result)) = Some (Player.with_pos x z rot p) /\
   (forall k, k <> id ->
      Obj.get k (players (fst result)) = Obj.get k (players state)) /\
   Obj.keys (players (fst result)) = Obj.keys (players state) /\
   minion (fst result) = minion state /\
   started (fst result) = started state /\
   snd result = [broadcast (msg_update id x z rot) [conn]]).
Proof.
  intros _. split.
  - intros Hg _. unfold handle. now rewrite Hg.
  - intros p Hg. cbv zeta. unfold handle. rewrite Hg.
    cbn [fst snd players with_players minion started].
    rewrite Obj_get_update_same, Hg, Obj_keys_update.
    repeat split; auto.
    intros k Hk. now apply Obj_get_update_other.
Qed.

Lemma move_writes_position_witness :
  no_proto two_players /\
  handle 0 (move "c" 1 0 0) "a" two_players = (two_players, []) /\
  Obj.get "b" (players (fst (handle 0 (move "b" 1 0 0) "a" two_players)))
  = Some (Player.with_pos 1 0 0 (fresh_player "b")) /\
  snd (handle 0 (move "b" 1 0 0) "a" two_players)
  = [broadcast (msg_update "b" 1 0 0) ["a"%string]].
Proof.
  split; [reflexivity|].
  destruct (move_writes_position 0 "a" two_players "b" 1 0 0 eq_refl)
    as [_ Hb].
  destruct (Hb (fresh_player "b") eq_refl) as (H1 & _ & _ & _ & _ & H2).
  split; [|split; [exact H1 | exact H2]].
  exact (proj1 (move_writes_position 0 "a" two_players "c" 1 0 0 eq_refl)
           eq_refl eq_refl).
Defined.

(** X4: a select-char always concerns the player of the sending
    connection.  In a session that no connection named ["__proto__"] has
    joined, without such a player and from a connection whose name the
    roster cannot inherit, it changes nothing and sends nothing; with such
    a player it overwrites the character index of that player and nothing
    else, and broadcasts the player as it is stored. *)
Theorem select_char_writes_charIndex rnd conn state c :
  no_proto state ->
  (Obj.get conn (players state) = None -> inherited conn = false ->
   handle rnd (select_char c) conn state = (state, [])) /\
  (forall p, Obj.get conn (players state) = Some p ->
   let result := handle rnd (select_char c) conn state in
   Obj.get conn (players (fst result)) = Some (Player.with_charIndex c p) /\
   (forall k, k <> conn ->
      Obj.get k (players (fst result)) = Obj.get k (players state)) /\
   Obj.keys (players (fst result)) = Obj.keys (players state) /\
   minion (fst result) = minion state /\
   started (fst result) = started state /\
   snd result = [broadcast (msg_player_update (Player.with_charIndex c p)) []]).
Proof.
  intros _. split.
  - intros Hg _. unfold handle. now rewrite Hg.
  - intros p Hg. cbv zeta. unfold handle. rewrite Hg.
    cbn [fst snd players with_players minion started].
    rewrite Obj_get_update_same, Hg, Obj_keys_update. cbn [option_map].
    repeat split; auto.
    intros k Hk. now apply Obj_get_update_other.
Qed.

Lemma select_char_writes_charIndex_witness :
  no_proto two_players /\
  handle 0 (select_char 3) "c" two_players = (two_players, []) /\
  Obj.get "b" (players (fst (handle 0 (select_char 3) "b" two_players)))
  = Some (Player.with_charIndex 3 (fresh_player "b")).
Proof.
  split; [reflexivity|]. split.
  - exact (proj1 (select_char_writes_charIndex 0 "c" two_players 3 eq_refl)
             eq_refl eq_refl).
  - exact (proj1 (proj2 (select_char_writes_charIndex 0 "b" two_players 3
                           eq_refl) (fresh_player "b") eq_refl)).
Defined.

(** X5: in a session that no connection named ["__proto__"] has joined, a
    pickup for an id that is not in the roster and is not a name that the
    roster can inherit changes nothing and sends nothing; a pickup for an
    id of the roster overwrites the weapon of that player with the token of
    the message, whatever the token and whoever sends it, and nothing else,
    and broadcasts the id and the weapon. *)
Theorem pickup_writes_weapon rnd conn state id w :
  no_proto state ->
  (Obj.get id (players state) = None -> inherited id = false ->
   handle rnd (pickup id w) conn state = (state, [])) /\
  (forall p, Obj.get id (players state) = Some p ->
   let result := handle rnd (pickup id w) conn state in
   Obj.get id (players (fst result)) = Some (Player.with_weapon w p) /\
   (forall k, k <> id ->
      Obj.get k (players (fst result)) = Obj.get k (players state)) /\
   Obj.keys (players (fst result)) = Obj.keys (players state) /\
   minion (fst result) = minion state /\
   started (fst result) = started state /\
   snd result = [broadcast (msg_pickup id w) []]).
Proof.
  intros _. split.
  - intros Hg _. unfold handle. now rewrite Hg.
  - intros p Hg. cbv zeta. unfold handle. rewrite Hg.
    cbn [fst snd players with_players minion started].
    rewrite Obj_get_update_same, Hg, Obj_keys_update.
    repeat split; auto.
    intros k Hk. now apply Obj_get_update_other.
Qed.

Lemma pickup_writes_weapon_witness :
  no_proto two_players /\
  handle 0 (pickup "c" "sword") "a" two_players = (two_players, []) /\
  Obj.get "b" (players (fst (handle 0 (pickup "b" "sword") "a" two_players)))
  = Some (Player.with_weapon "sword" (fresh_player "b")).
Proof.
  split; [reflexivity|]. split.
  - exact (proj1 (pickup_writes_weapon 0 "a" two_players "c" "sword" eq_refl)
             eq_refl eq_refl).
  - exact (proj1 (proj2 (pickup_writes_weapon 0 "a" two_players "b" "sword"
                           eq_refl) (fresh_player "b") eq_refl)).
Defined.



(** ** What a session keeps *)

Lemma handle_keys_grow rnd data conn state k :
  In k (Obj.keys (players state)) ->
  In k (Obj.keys (players (fst (handle rnd data conn state)))).
Proof.
  intros Hk.
  destruct data as [|c|id x z r| |tid sid dmg|dmg|id w|ty];
    try (match goal with
         | |- In _ (Obj.keys (players (fst (handle _ ?d _ _)))) =>
             destruct (handle_roles rnd d conn state) as [Hro _];
               [discriminate | discriminate |];
             rewrite keys_roles, Hro, <- keys_roles; exact Hk
         end).
  - cbn [handle fst players with_players].
    destruct (Obj.get conn (players state)) as [p|] eqn:Hg.
    + now rewrite (Obj_keys_set_old _ _ _ _ Hg).
    + apply (proj2 (Obj_keys_set_new conn (fresh_player conn) _ Hg)). now right.
  - unfold handle.
    destruct (Nat.eqb (length (Obj.keys (players state))) 0); auto.
    cbn [fst players]. now rewrite keys_reset.
Qed.

(** X7: no message and no run of the minion loop removes a player: a key
    of the roster is still a key of the roster after the step (a
    disconnected player stays in the session). *)
Theorem roster_never_shrinks allowed room room' state k :
  step_with allowed room room' -> room = Some state ->
  In k (Obj.keys (players state)) ->
  exists state', room' = Some state' /\ In k (Obj.keys (players state')).
Proof.
  intros Hs E Hk.
  destruct Hs as [rnd data conn room _ _|room]; subst room.
  - unfold onMessage.
    generalize (handle_keys_grow rnd data conn state k Hk).
    destruct (handle rnd data conn state) as [state' out]. simpl. eauto.
  - destruct (tick_roles state) as (state' & -> & Hro & _).
    exists state'. split; auto.
    now rewrite keys_roles, Hro, <- keys_roles.
Qed.

Lemma roster_never_shrinks_witness :
  step_with (fun _ _ _ => True) (Some lobby_a) (Some two_players) /\
  In "a"%string (Obj.keys (players lobby_a)) /\
  exists state',
    Some two_players = Some state' /\
    In "a"%string (Obj.keys (players state')).
Proof.
  assert (Hs : step_with (fun _ _ _ => True) (Some lobby_a) (Some two_players)).
  { rewrite <- join_b. apply step_message; [exact zero_one | exact I]. }
  assert (Hk : In "a"%string (Obj.keys (players lobby_a))) by (simpl; auto).
  split; [exact Hs|]. split; [exact Hk|].
  exact (roster_never_shrinks _ _ _ lobby_a "a" Hs eq_refl Hk).
Defined.

Lemma ids_match_update k f ps :
  (forall p, Player.id (f p) = Player.id p) ->
  ids_match ps -> ids_match (Obj.update k f ps).
Proof.
  intros Hf. unfold ids_match.
  induction ps as [|[k' p] ps IH]; simpl; auto.
  intros H. inversion H; subst.
  destruct (String.eqb k k'); constructor; simpl in *; auto.
  now rewrite Hf.
Qed.

Lemma ids_match_set k v ps :
  Player.id v = k -> ids_match ps -> ids_match (Obj.set k v ps).
Proof.
  intros Hv H. unfold Obj.set.
  destruct (Obj.get k ps) as [p|] eqn:Hg.
  - unfold ids_match in *. clear Hg.
    induction ps as [|[k' p'] ps IH]; simpl; auto.
    apply Forall_cons_iff in H. destruct H as [H1 H2].
    destruct (String.eqb k k') eqn:E; constructor; simpl in *; auto.
    apply String.eqb_eq in E. congruence.
  - unfold Obj.define. destruct (Obj.array_index k) as [n|].
    + unfold ids_match in *. clear Hg.
      induction ps as [|[k' p'] ps IH]; simpl.
      * constructor; auto.
      * apply Forall_cons_iff in H. destruct H as [H1 H2].
        destruct (Obj.array_index k') as [m|]; [destruct (n <? m)%N|];
          repeat constructor; simpl; auto.
    + unfold ids_match. apply Forall_app. split; auto.
Qed.

Lemma ids_match_get k p ps : ids_match ps -> Obj.get k ps = Some p -> Player.id p = k.
Proof.
  intros H Hg. apply Obj_get_In in Hg. unfold ids_match in H.
  rewrite Forall_forall in H. exact (H (k, p) Hg).
Qed.

Lemma ids_match_reset hunterId ids ps :
  ids_match ps ->
  ids_match (fold_left (fun ps id => reset_player hunterId id ps) ids ps).
Proof.
  revert ps. induction ids as [|i ids IH]; simpl; auto.
  intros ps H. apply IH. unfold reset_player. now apply ids_match_update.
Qed.

Lemma ids_match_handle rnd data conn state :
  ids_match (players state) ->
  ids_match (players (fst (handle rnd data conn state))).
Proof.
  intros H.
  destruct data as [|c|id x z r| |tid sid dmg|dmg|id w|ty]; simpl.
  - now apply ids_match_set.
  - destruct (Obj.get conn (players state)); simpl; auto.
    now apply ids_match_update.
  - destruct (Obj.get id (players state)); simpl; auto.
    now apply ids_match_update.
  - destruct (Nat.eqb (length (Obj.keys (players state))) 0); simpl; auto.
    now apply ids_match_reset.
  - destruct (Obj.get tid (players state)); simpl; auto.
    assert (H1 : forall h, ids_match
                   (Obj.update tid (Player.with_hp h) (players state)))
      by (intros; now apply ids_match_update).
    destruct (num_eq _ 0 && truthy sid); auto.
    unfold heal_source. destruct sid as [s|]; auto.
    destruct (Obj.get s _); auto.
    destruct (Role_eqb _ hunter); auto.
    now apply ids_match_update.
  - destruct (minion state); simpl; auto.
    destruct (num_le _ 0); simpl; auto.
  - destruct (Obj.get id (players state)); simpl; auto.
    now apply ids_match_update.
  - assumption.
Qed.

Lemma ids_match_tick state :
  ids_match (players state) ->
  match fst (minionTick (Some state)) with
  | Some state' => ids_match (players state')
  | None => False
  end.
Proof.
  intros H. unfold minionTick.
  destruct (started state); simpl; auto.
  destruct (minion state) as [m|]; simpl; auto.
  destruct (find_nearest m (players state)) as [minDist [[k p]|]];
    simpl; auto.
  destruct (num_lt 0 _); simpl; auto.
  destruct (num_lt minDist 3.5); simpl; auto.
  now apply ids_match_update.
Qed.

Lemma ids_match_reachable allowed room :
  reachable_with allowed room ->
  match room with
  | Some state => ids_match (players state)
  | None => True
  end.
Proof.
  induction 1 as [|room room' Hr IH Hs]; [exact I|].
  destruct Hs as [rnd data conn room _ _|room].
  - unfold onMessage. destruct room as [state|].
    + generalize (ids_match_handle rnd data conn state IH).
      destruct (handle rnd data conn state); auto.
    + assert (H0 : ids_match (players initial_state)) by constructor.
      generalize (ids_match_handle rnd data conn initial_state H0).
      destruct (handle rnd data conn initial_state); auto.
  - destruct room as [state|]; [|exact I].
    generalize (ids_match_tick state IH).
    destruct (fst (minionTick (Some state))); tauto.
Qed.

(** X8: in every reachable state the field [id] of a player is the key
    the player is stored under, so the id a message carries (the roster of
    a join, the target of a hit of the minion) is the key of the roster. *)
Theorem player_id_is_key state k p :
  reachable (Some state) -> Obj.get k (players state) = Some p ->
  Player.id p = k.
Proof.
  intros Hr Hg.
  exact (ids_match_get k p _ (ids_match_reachable _ (Some state) Hr) Hg).
Qed.

Lemma player_id_is_key_witness :
  reachable (Some lobby_a) /\
  Obj.get "a" (players lobby_a) = Some (fresh_player "a") /\
  Player.id (fresh_player "a") = "a"%string.
Proof.
  split; [exact reachable_lobby_a|]. split; [reflexivity|].
  exact (player_id_is_key lobby_a "a" (fresh_player "a")
           reachable_lobby_a eq_refl).
Defined.

(** Only [start-game] and [minion-hit] write the minion, and only
    [start-game] writes [started]. *)
Lemma handle_minion_started rnd data conn state :
  data <> start_game -> (forall d, data <> minion_hit d) ->
  minion (fst (handle rnd data conn state)) = minion state /\
  started (fst (handle rnd data conn state)) = started state.
Proof.
  intros Hs Hm.
  destruct data as [|c|id x z r| |tid sid dmg|dmg|id w|ty]; simpl;
    try congruence; auto.
  - destruct (Obj.get conn (players state)); auto.
  - destruct (Obj.get id (players state)); auto.
  - destruct (Obj.get tid (players state)); auto.
  - destruct (Obj.get id (players state)); auto.
Qed.

Lemma handle_started rnd data conn state :
  started state = true -> started (fst (handle rnd data conn state)) = true.
Proof.
  intros H.
  destruct data as [|c|id x z r| |tid sid dmg|dmg|id w|ty];
    try (match goal with
         | |- started (fst (handle _ ?d _ _)) = true =>
             destruct (handle_roles rnd d conn state) as [_ Hst];
               [discriminate | discriminate |];
             rewrite Hst; exact H
         end).
  - exact H.
  - unfold handle.
    destruct (Nat.eqb (length (Obj.keys (players state))) 0); auto.
Qed.

(** X9: once [started] is set nothing clears it: after every message and
    every run of the minion loop on a started session the session is still
    started (a game-over does not end the session, and a new start-game
    starts again from a started session). *)
Theorem started_is_never_cleared allowed room room' state :
  step_with allowed room room' -> room = Some state ->
  started state = true ->
  exists state', room' = Some state' /\ started state' = true.
Proof.
  intros Hs E H.
  destruct Hs as [rnd data conn room _ _|room]; subst room.
  - unfold onMessage.
    generalize (handle_started rnd data conn state H).
    destruct (handle rnd data conn state) as [state' out]. simpl. eauto.
  - destruct (tick_roles state) as (state' & -> & _ & Hst).
    exists state'. split; congruence.
Qed.

Lemma started_is_never_cleared_witness :
  step_with (fun _ _ _ => True) (Some game_origin) (Some game_rejoined) /\
  started game_origin = true /\
  exists state', Some game_rejoined = Some state' /\ started state' = true.
Proof.
  assert (Hs : step_with (fun _ _ _ => True)
                 (Some game_origin) (Some game_rejoined)).
  { rewrite <- rejoin_a. apply step_message; [exact zero_one | exact I]. }
  split; [exact Hs|]. split; [reflexivity|].
  exact (started_is_never_cleared _ _ _ game_origin Hs eq_refl eq_refl).
Defined.

Lemma count_zero_no_hunter k p ps :
  count_role hunter ps = 0%nat -> Obj.get k ps = Some p ->
  Player.role p <> hunter.
Proof.
  intros Hc Hg Hr. apply Obj_get_In in Hg.
  assert (Hin : In p (filter (has_role hunter) (Obj.values ps))).
  { apply filter_In. split.
    - change p with (snd (k, p)). now apply in_map.
    - unfold has_role. now rewrite Hr. }
  unfold count_role in Hc.
  destruct (filter (has_role hunter) (Obj.values ps)); [contradiction|].
  discriminate.
Qed.

Lemma lobby_handle rnd data conn state :
  (started state = false ->
   minion state = None /\ count_role hunter (players state) = 0%nat) ->
  started (fst (handle rnd data conn state)) = false ->
  minion (fst (handle rnd data conn state)) = None /\
  count_role hunter (players (fst (handle rnd data conn state))) = 0%nat.
Proof.
  intros IH.
  assert (Hkeep : data <> join -> data <> start_game ->
            (forall d, data <> minion_hit d) ->
            started (fst (handle rnd data conn state)) = false ->
            minion (fst (handle rnd data conn state)) = None /\
            count_role hunter (players (fst (handle rnd data conn state)))
            = 0%nat).
  { intros Hj Hs Hm.
    destruct (handle_minion_started rnd data conn state Hs Hm) as [Em Es].
    destruct (handle_roles rnd data conn state Hj Hs) as [Hro _].
    rewrite Em, Es, count_role_roles, Hro, <- count_role_roles. exact IH. }
  destruct data as [|c|id x z r| |tid sid dmg|dmg|id w|ty];
    try (apply Hkeep; discriminate).
  - cbn [handle fst players with_players minion started]. intros Hs.
    destruct (IH Hs) as [Hm Hc]. split; auto.
    rewrite count_hunter_join; auto.
    intros p Hp. now apply (count_zero_no_hunter conn p (players state)).
  - unfold handle.
    destruct (Nat.eqb (length (Obj.keys (players state))) 0); auto.
    cbn [fst started]. discriminate.
  - unfold handle. destruct (minion state) as [m|] eqn:Em.
    + destruct (num_le (Minion.hp m - dmg) 0);
        cbn [fst started with_minion]; intros Hs;
        destruct (IH Hs); discriminate.
    + cbn [fst]. intros Hs. rewrite Em. auto.
Qed.

Lemma tick_not_started state :
  started state = false -> minionTick (Some state) = (Some state, []).
Proof. intros H. unfold minionTick. now rewrite H. Qed.

Lemma lobby_reachable allowed room :
  reachable_with allowed room ->
  match room with
  | Some state =>
      started state = false ->
      minion state = None /\ count_role hunter (players state) = 0%nat
  | None => True
  end.
Proof.
  induction 1 as [|room room' Hr IH Hs]; [exact I|].
  destruct Hs as [rnd data conn room _ _|room].
  - unfold onMessage. destruct room as [state|].
    + generalize (lobby_handle rnd data conn state IH).
      destruct (handle rnd data conn state); auto.
    + assert (H0 : started initial_state = false ->
                   minion initial_state = None /\
                   count_role hunter (players initial_state) = 0%nat)
        by (intros _; split; reflexivity).
      generalize (lobby_handle rnd data conn initial_state H0).
      destruct (handle rnd data conn initial_state); auto.
  - destruct room as [state|]; [|exact I].
    destruct (started state) eqn:Es.
    + destruct (tick_roles state) as (state' & -> & _ & Hst).
      intros H. congruence.
    + rewrite (tick_not_started state Es). simpl. rewrite Es. exact IH.
Qed.

(** X10: in every reachable state that is not started there is no minion
    and nobody is the hunter: a minion and a hunter exist only from the
    first start-game on. *)
Theorem lobby_has_no_hunter_no_minion state :
  reachable (Some state) -> started state = false ->
  minion state = None /\ count_role hunter (players state) = 0%nat.
Proof.
  intros Hr. exact (lobby_reachable _ (Some state) Hr).
Qed.

Lemma reachable_two_players : reachable (Some two_players).
Proof.
  apply (reachable_message _ (Some lobby_a) 0 join "b");
    [exact reachable_lobby_a | exact zero_one | exact I | exact join_b].
Qed.

Lemma lobby_has_no_hunter_no_minion_witness :
  reachable (Some two_players) /\ started two_players = false /\
  minion two_players = None /\
  count_role hunter (players two_players) = 0%nat.
Proof.
  split; [exact reachable_two_players|]. split; [reflexivity|].
  exact (lobby_has_no_hunter_no_minion two_players reachable_two_players
           eq_refl).
Defined.

Lemma minion_alive_handle rnd data conn state :
  (forall m, minion state = Some m ->
     0 < Minion.hp m /\ started state = true) ->
  forall m, minion (fst (handle rnd data conn state)) = Some m ->
    0 < Minion.hp m /\ started (fst (handle rnd data conn state)) = true.
Proof.
  intros IH.
  assert (Hkeep : data <> start_game -> (forall d, data <> minion_hit d) ->
            forall m, minion (fst (handle rnd data conn state)) = Some m ->
            0 < Minion.hp m /\
            started (fst (handle rnd data conn state)) = true).
  { intros Hs Hm.
    destruct (handle_minion_started rnd data conn state Hs Hm) as [Em Es].
    rewrite Em, Es. exact IH. }
  destruct data as [|c|id x z r| |tid sid dmg|dmg|id w|ty];
    try (apply Hkeep; discriminate).
  - unfold handle.
    destruct (Nat.eqb (length (Obj.keys (players state))) 0); auto.
    cbn [fst minion started]. intros m [= <-]. split; [simpl; lra | reflexivity].
  - unfold handle. destruct (minion state) as [m0|] eqn:Em; [|cbn [fst]; rewrite Em; discriminate].
    destruct (num_le (Minion.hp m0 - dmg) 0) eqn:Hle;
      cbn [fst minion started with_minion]; intros m Hm; [discriminate|].
    injection Hm as <-. apply num_le_false in Hle.
    split; [exact Hle | exact (proj2 (IH m0 eq_refl))].
Qed.

Lemma minion_alive_tick state :
  (forall m, minion state = Some m ->
     0 < Minion.hp m /\ started state = true) ->
  match fst (minionTick (Some state)) with
  | Some state' =>
      forall m, minion state' = Some m ->
        0 < Minion.hp m /\ started state' = true
  | None => False
  end.
Proof.
  intros IH. unfold minionTick.
  destruct (started state) eqn:Es; cbn [negb fst]; [|now rewrite Es].
  destruct (minion state) as [m0|] eqn:Em; cbn [fst];
    [|rewrite Em; discriminate].
  destruct (IH m0 eq_refl) as [H0 _].
  destruct (find_nearest m0 (players state)) as [minDist [[k p]|]];
    cbn [fst]; [|rewrite Em, Es; intros m [= <-]; auto].
  destruct (num_lt 0 _); cbn [fst]; [|rewrite Em, Es; intros m [= <-]; auto].
  destruct (num_lt minDist 3.5);
    cbn [fst minion started with_minion with_players];
    rewrite Es; intros m [= <-]; auto.
Qed.

Lemma minion_alive_reachable allowed room :
  reachable_with allowed room ->
  match room with
  | Some state =>
      forall m, minion state = Some m ->
        0 < Minion.hp m /\ started state = true
  | None => True
  end.
Proof.
  induction 1 as [|room room' Hr IH Hs]; [exact I|].
  destruct Hs as [rnd data conn room _ _|room].
  - unfold onMessage. destruct room as [state|].
    + generalize (minion_alive_handle rnd data conn state IH).
      destruct (handle rnd data conn state); auto.
    + assert (H0 : forall m, minion initial_state = Some m ->
                     0 < Minion.hp m /\ started initial_state = true)
        by (intros m; discriminate).
      generalize (minion_alive_handle rnd data conn initial_state H0).
      destruct (handle rnd data conn initial_state); auto.
  - destruct room as [state|]; [|exact I].
    generalize (minion_alive_tick state IH).
    destruct (fst (minionTick (Some state))); tauto.
Qed.

Lemma hit_minion_origin :
  fst (onMessage 0 (minion_hit 490) "a" (Some game_origin))
  = Some game_minion_hit.
Proof.
  unfold onMessage, handle. evaluate.
  unfold game_minion_hit, with_minion. cbn.
  repeat f_equal; lra.
Qed.

Lemma nonneg_490 : 0 <= 490.
Proof. lra. Qed.

Lemma reachable_minion_hit : reachable_nonneg_damage (Some game_minion_hit).
Proof.
  apply (reachable_message _ (Some game_origin) 0 (minion_hit 490) "a");
    [|exact zero_one|exact nonneg_490|exact hit_minion_origin].
  apply reachable_game_origin; exact I.
Qed.

(** X11: in every state reached by messages whose damage is >= 0, a minion
    that is present has hp > 0 and the session is started: a minion whose
    hp reaches 0 or less is removed by the hit that does it, so for the
    evaluator a minion that is present is a minion that is alive. *)
Theorem minion_present_is_alive state m :
  reachable_nonneg_damage (Some state) -> minion state = Some m ->
  0 < Minion.hp m /\ started state = true /\ minionAlive state = true.
Proof.
  intros Hr Hm.
  destruct (minion_alive_reachable _ (Some state) Hr m Hm) as [H0 Hs].
  split; auto. split; auto.
  unfold minionAlive. rewrite Hm. now apply num_lt_true.
Qed.

Lemma minion_present_is_alive_witness :
  reachable_nonneg_damage (Some game_minion_hit) /\
  minion game_minion_hit = Some (Minion.mk 0 0 10) /\
  0 < 10 /\ minionAlive game_minion_hit = true.
Proof.
  split; [exact reachable_minion_hit|]. split; [reflexivity|].
  destruct (minion_present_is_alive game_minion_hit (Minion.mk 0 0 10)
              reachable_minion_hit eq_refl) as (H1 & _ & H2).
  split; [exact H1 | exact H2].
Defined.

(** X12: when no message carries a negative damage, the hp of every
    player stays between 0 and 150 in every reachable state: 150 is the
    cap of the heal, and nothing else raises an hp. *)
Theorem hp_within_bounds state :
  reachable_nonneg_damage (Some state) ->
  Forall (fun p => 0 <= Player.hp p <= 150) (Obj.values (players state)).
Proof.
  intros H.
  apply (all_hp_reachable (fun h => 0 <= h <= 150) (fun d => 0 <= d))
    with (allowed := fun data (_ : string) (_ : option GameState) =>
                       damage_in (fun d => 0 <= d) data)
         (room := Some state);
    [ lra
    | intros h d Hh Hd; rewrite damaged_max; split;
        [apply Rmax_l | apply Rmax_lub; lra]
    | intros h Hh; rewrite damaged_max; split;
        [apply Rmax_l | apply Rmax_lub; lra]
    | intros h Hh; split; [apply Rmin_glb; lra | apply Rmin_l]
    | intros data _ _ Hd; exact Hd | exact H ].
Qed.

Lemma Rmin_cap h : h + 20 <= 150 -> Rmin 150 (h + 20) = h + 20.
Proof. intros H. unfold Rmin. destruct (Rle_dec 150 (h + 20)); lra. Qed.

Lemma hit_origin :
  fst (onMessage 0 (hit "b" (Some "a"%string) 100) "a" (Some game_origin))
  = Some (game_healed 120).
Proof.
  unfold onMessage, handle. evaluate.
  unfold game_healed, with_players, Player.with_hp. cbn.
  rewrite Rmin_cap by lra. repeat f_equal; lra.
Qed.

Lemma hit_healed_120 :
  fst (onMessage 0 (hit "b" (Some "a"%string) 100) "a" (Some (game_healed 120)))
  = Some (game_healed 140).
Proof.
  unfold onMessage, handle. evaluate.
  unfold game_healed, with_players, Player.with_hp. cbn.
  rewrite Rmin_cap by lra. repeat f_equal; lra.
Qed.

Lemma hit_healed_140 :
  fst (onMessage 0 (hit "b" (Some "a"%string) 100) "a" (Some (game_healed 140)))
  = Some (game_healed 150).
Proof.
  unfold onMessage, handle. evaluate.
  unfold game_healed, with_players, Player.with_hp. cbn.
  rewrite Rmin_left by lra. reflexivity.
Qed.

Lemma nonneg_100 : 0 <= 100.
Proof. lra. Qed.

Lemma reachable_healed : reachable_nonneg_damage (Some (game_healed 150)).
Proof.
  apply (reachable_message _ (Some (game_healed 140)) 0
           (hit "b" (Some "a"%string) 100) "a");
    [|exact zero_one|exact nonneg_100|exact hit_healed_140].
  apply (reachable_message _ (Some (game_healed 120)) 0
           (hit "b" (Some "a"%string) 100) "a");
    [|exact zero_one|exact nonneg_100|exact hit_healed_120].
  apply (reachable_message _ (Some game_origin) 0
           (hit "b" (Some "a"%string) 100) "a");
    [|exact zero_one|exact nonneg_100|exact hit_origin].
  apply reachable_game_origin; exact I.
Qed.

Lemma hp_within_bounds_witness :
  reachable_nonneg_damage (Some (game_healed 150)) /\
  Forall (fun p => 0 <= Player.hp p <= 150)
    (Obj.values (players (game_healed 150))).
Proof.
  split; [exact reachable_healed|].
  exact (hp_within_bounds (game_healed 150) reachable_healed).
Defined.

(** ** Runs of the minion loop *)




Lemma with_hp_same p : Player.with_hp (Player.hp p) p = p.
Proof. now destruct p. Qed.

(** X14: a run of the minion loop never changes a role, an id, a
    position, a weapon, [started], the order of the roster or the hp of the
    minion.  At most one player changes, in its hp only, and that hp does
    not go up. *)
Theorem tick_only_lowers_one_hp state :
  well_formed state ->
  exists state',
    fst (minionTick (Some state)) = Some state' /\
    roles (players state') = roles (players state) /\
    started state' = started state /\
    option_map Minion.hp (minion state') = option_map Minion.hp (minion state) /\
    (forall k p, Obj.get k (players state) = Some p ->
       exists h, Obj.get k (players state') = Some (Player.with_hp h p) /\
                 h <= Player.hp p) /\
    exists target, forall k, k <> target ->
      Obj.get k (players state') = Obj.get k (players state).
Proof.
  intros Hwf.
  assert (Hsame : forall k p, Obj.get k (players state) = Some p ->
            exists h, Obj.get k (players state) = Some (Player.with_hp h p) /\
                      h <= Player.hp p).
  { intros k p Hg. exists (Player.hp p). rewrite with_hp_same. split; [auto|lra]. }
  assert (Hidle : exists state',
            Some state = Some state' /\
            roles (players state') = roles (players state) /\
            started state' = started state /\
            option_map Minion.hp (minion state')
            = option_map Minion.hp (minion state) /\
            (forall k p, Obj.get k (players state) = Some p ->
               exists h, Obj.get k (players state') = Some (Player.with_hp h p) /\
                         h <= Player.hp p) /\
            exists target : string, forall k, k <> target ->
              Obj.get k (players state') = Obj.get k (players state)).
  { exists state. repeat split; auto. exists EmptyString. auto. }
  unfold minionTick.
  destruct (started state) eqn:Es; cbn [negb fst]; [|exact Hidle].
  destruct (minion state) as [m|] eqn:Em; cbn [fst]; [|exact Hidle].
  destruct (find_nearest m (players state)) as [minDist [[k p]|]] eqn:E;
    cbn [fst]; [|exact Hidle].
  destruct (num_lt 0 _); cbn [fst].
  2:{ exact Hidle. }
  destruct (num_lt minDist 3.5); cbn [fst].
  - eexists. split; [reflexivity|].
    cbn [players with_players with_minion started minion option_map Minion.hp].
    rewrite ?Em, ?Es. split; [now apply roles_update|]. split; [reflexivity|].
    split; [reflexivity|].
    destruct (find_nearest_some m _ _ k p E) as (Hn & _ & _).
    assert (Hg : Obj.get k (players state) = Some p).
    { apply Obj_In_get; auto. eapply find_nearest_In; eauto. }
    destruct Hn as (_ & _ & _ & [_ Hhp] & _).
    split.
    + intros k0 p0 Hg0. rewrite Obj_get_update.
      destruct (String.eqb k0 k) eqn:Ek.
      * apply String.eqb_eq in Ek. subst k0.
        rewrite Hg in Hg0 |- *. injection Hg0 as <-.
        exists (damaged (Player.hp p) 0.5). split; [reflexivity|].
        rewrite damaged_max. apply Rmax_lub; lra.
      * exists (Player.hp p0). rewrite with_hp_same. split; [auto|lra].
    + exists k. intros k0 Hk. now apply Obj_get_update_other.
  - eexists. split; [reflexivity|].
    cbn [players with_players with_minion started minion option_map Minion.hp].
    rewrite ?Em, ?Es. repeat split; auto. exists EmptyString. auto.
Qed.

Lemma tick_only_lowers_one_hp_witness :
  well_formed game_moved /\
  exists state',
    fst (minionTick (Some game_moved)) = Some state' /\
    roles (players state') = roles (players game_moved).
Proof.
  split; [exact well_formed_game_moved|].
  destruct (tick_only_lowers_one_hp game_moved well_formed_game_moved)
    as (state' & H1 & H2 & _).
  exists state'. split; assumption.
Defined.

(** ** More on hits *)

Lemma get_update_hp k t v ps p :
  Obj.get k ps = Some p ->
  exists h, Obj.get k (Obj.update t (Player.with_hp v) ps)
            = Some (Player.with_hp h p) /\
            (k <> t -> h = Player.hp p).
Proof.
  intros Hg. rewrite Obj_get_update.
  destruct (String.eqb k t) eqn:E.
  - apply String.eqb_eq in E. subst t. rewrite Hg. exists v.
    split; [reflexivity | tauto].
  - exists (Player.hp p). rewrite with_hp_same. auto.
Qed.

Lemma get_heal_source k sid ps p :
  Obj.get k ps = Some p ->
  exists h, Obj.get k (heal_source sid ps) = Some (Player.with_hp h p) /\
            (sid <> Some k -> h = Player.hp p).
Proof.
  intros Hg.
  assert (Hsame : exists h, Obj.get k ps = Some (Player.with_hp h p) /\
                            (sid <> Some k -> h = Player.hp p)).
  { exists (Player.hp p). rewrite with_hp_same. auto. }
  unfold heal_source. destruct sid as [s|]; auto.
  destruct (Obj.get s ps) as [source|]; auto.
  destruct (Role_eqb (Player.role source) hunter); auto.
  destruct (get_update_hp k s (Rmin 150 (Player.hp source + 20)) ps p Hg)
    as (h & Hh & Hne).
  exists h. split; auto. intros Hs. apply Hne. congruence.
Qed.

(** X17: in a session that no connection named ["__proto__"] has joined,
    a hit on a target that is not in the roster and is not a name that the
    roster can inherit changes nothing and sends nothing, even with a
    source that names a hunter.  A hit never changes a role, the order of
    the roster, the minion or [started], and in a player it changes nothing
    but the hp; the hp of a player who is neither the target nor the source
    stays as it is. *)
Theorem hit_changes_hp_only rnd conn state tid sid dmg :
  no_proto state ->
  let state' := fst (handle rnd (hit tid sid dmg) conn state) in
  (Obj.get tid (players state) = None -> inherited tid = false ->
   handle rnd (hit tid sid dmg) conn state = (state, [])) /\
  roles (players state') = roles (players state) /\
  minion state' = minion state /\
  started state' = started state /\
  (forall k p, Obj.get k (players state) = Some p ->
     exists h, Obj.get k (players state') = Some (Player.with_hp h p) /\
               (k <> tid -> sid <> Some k -> h = Player.hp p)).
Proof.
  intros _. cbv zeta.
  destruct (handle_roles rnd (hit tid sid dmg) conn state) as [Hro Hst];
    try discriminate.
  destruct (handle_minion_started rnd (hit tid sid dmg) conn state)
    as [Hm _]; try discriminate.
  split; [|split; [exact Hro|split; [exact Hm|split; [exact Hst|]]]].
  - intros Hg _. unfold handle. now rewrite Hg.
  - intros k p Hg. unfold handle.
    destruct (Obj.get tid (players state)) as [target|] eqn:Ht.
    + cbn [fst players with_players].
      destruct (get_update_hp k tid (damaged (Player.hp target) dmg)
                  (players state) p Hg) as (h1 & H1 & Hne1).
      destruct (num_eq _ 0 && truthy sid).
      * destruct (get_heal_source k sid _ _ H1) as (h2 & H2 & Hne2).
        exists h2. split; [exact H2|].
        intros Hk Hs. rewrite (Hne2 Hs). simpl. now apply Hne1.
      * exists h1. split; [exact H1|]. intros Hk _. now apply Hne1.
    + cbn [fst]. exists (Player.hp p). rewrite with_hp_same. auto.
Qed.

Lemma hit_changes_hp_only_witness :
  no_proto runner_low /\
  handle 0 (hit "c" (Some "a"%string) 5) "a" runner_low = (runner_low, []) /\
  roles (players (fst (handle 0 (hit "b" (Some "a"%string) 5) "a" runner_low)))
  = roles (players runner_low).
Proof.
  split; [reflexivity|]. split.
  - exact (proj1 (hit_changes_hp_only 0 "a" runner_low "c" (Some "a"%string) 5
                    eq_refl) eq_refl eq_refl).
  - exact (proj1 (proj2 (hit_changes_hp_only 0 "a" runner_low "b"
                           (Some "a"%string) 5 eq_refl))).
Defined.

Lemma count_zero_all ps :
  count_role hunter ps = 0%nat ->
  forall p, In p (Obj.values ps) -> Player.role p <> hunter.
Proof.
  intros Hc p Hin Hr.
  assert (H : In p (filter (has_role hunter) (Obj.values ps))).
  { apply filter_In. split; auto. unfold has_role. now rewrite Hr. }
  unfold count_role in Hc.
  destruct (filter (has_role hunter) (Obj.values ps)); [contradiction|].
  discriminate.
Qed.

(** X18: the evaluator does not look at [started].  In a reachable state
    that is not started (no hunter and no minion yet) every hit on a
    player of the roster is followed by a game-over: for the Runners as
    long as a runner is left with hp > 0, for the Hunter otherwise. *)
Theorem hit_before_start_is_game_over rnd conn state tid sid dmg target :
  reachable (Some state) -> started state = false ->
  Obj.get tid (players state) = Some target ->
  let state' := fst (handle rnd (hit tid sid dmg) conn state) in
  let out := snd (handle rnd (hit tid sid dmg) conn state) in
  (no_alive_runner state' ->
   out = [broadcast (msg_hit tid (hp_of tid (players state'))) [];
          broadcast (msg_game_over "Hunter" "Runners Eliminated") []]) /\
  (~ no_alive_runner state' ->
   out = [broadcast (msg_hit tid (hp_of tid (players state'))) [];
          broadcast (msg_game_over "Runners" "Hunter & Minion Defeated") []]).
Proof.
  intros Hr Hs Hg. cbv zeta.
  destruct (lobby_reachable _ (Some state) Hr Hs) as [Hm Hc].
  destruct (handle_roles rnd (hit tid sid dmg) conn state) as [Hro _];
    try discriminate.
  destruct (handle_minion_started rnd (hit tid sid dmg) conn state)
    as [Hm' _]; try discriminate.
  set (state' := fst (handle rnd (hit tid sid dmg) conn state)) in *.
  assert (Hout : snd (handle rnd (hit tid sid dmg) conn state)
                 = broadcast (msg_hit tid (hp_of tid (players state'))) []
                     :: checkWinCondition state').
  { unfold state', handle. rewrite Hg. reflexivity. }
  rewrite Hout.
  assert (Hc' : count_role hunter (players state') = 0%nat)
    by (rewrite count_role_roles, Hro, <- count_role_roles; exact Hc).
  assert (Hnh : find (alive hunter) (Obj.values (players state')) = None).
  { apply find_alive_none. intros p Hp [Hrole _].
    exact (count_zero_all _ Hc' p Hp Hrole). }
  assert (Hna : minionAlive state' = false).
  { unfold minionAlive. now rewrite Hm', Hm. }
  unfold checkWinCondition. rewrite Hnh, Hna. cbn [defined negb andb].
  unfold no_alive_runner, alive_runner.
  rewrite <- (filter_alive_none runner).
  destruct (length (filter (alive runner) (Obj.values (players state'))));
    cbn [Nat.eqb]; split; intros H; try reflexivity.
  - now elim H.
  - discriminate.
Qed.

Lemma hit_before_start_is_game_over_witness :
  reachable (Some two_players) /\ started two_players = false /\
  Obj.get "b" (players two_players) = Some (fresh_player "b") /\
  ~ no_alive_runner (fst (handle 0 (hit "b" None 100) "a" two_players)) /\
  snd (handle 0 (hit "b" None 100) "a" two_players)
  = [broadcast
       (msg_hit "b"
          (hp_of "b" (players (fst (handle 0 (hit "b" None 100) "a" two_players)))))
       [];
     broadcast (msg_game_over "Runners" "Hunter & Minion Defeated") []].
Proof.
  assert (Ha : ~ no_alive_runner
                 (fst (handle 0 (hit "b" None 100) "a" two_players))).
  { intros H. apply (H (fresh_player "a")).
    - unfold handle. evaluate. auto.
    - split; simpl; [reflexivity | lra]. }
  split; [exact reachable_two_players|]. split; [reflexivity|].
  split; [reflexivity|]. split; [exact Ha|].
  exact (proj2 (hit_before_start_is_game_over 0 "a" two_players "b" None 100
                  (fresh_player "b") reachable_two_players eq_refl eq_refl) Ha).
Defined.

(** ** More on the start of a game *)

Lemma same_identity_refl p : same_identity p p.
Proof. unfold same_identity. auto. Qed.

Lemma same_identity_trans p q r :
  same_identity p q -> same_identity q r -> same_identity p r.
Proof. unfold same_identity. intuition congruence. Qed.

Lemma identity_reset hunterId ids : forall ps k p,
  Obj.get k ps = Some p ->
  exists p',
    Obj.get k (fold_left (fun ps id => reset_player hunterId id ps) ids ps)
    = Some p' /\ same_identity p p'.
Proof.
  induction ids as [|i ids IH]; intros ps k p Hg; simpl.
  - exists p. split; [auto | apply same_identity_refl].
  - assert (H1 : exists q, Obj.get k (reset_player hunterId i ps) = Some q /\
                           same_identity p q).
    { unfold reset_player. rewrite Obj_get_update.
      destruct (String.eqb k i) eqn:E.
      - apply String.eqb_eq in E. subst i. rewrite Hg.
        eexists. split; [reflexivity|]. unfold same_identity. simpl. auto.
      - exists p. split; [auto | apply same_identity_refl]. }
    destruct H1 as (q & Hq & Hpq).
    destruct (IH _ k q Hq) as (p' & Hp' & Hqp').
    exists p'. split; auto. eapply same_identity_trans; eauto.
Qed.

(** X19: a start-game leaves every player where it is and as who it is:
    the id, the position, the rotation and the character index of each
    player of the roster are kept (only the role, the hp and the weapon
    are written), and so is [lastHitTime]. *)
Theorem start_game_keeps_identity rnd conn state :
  let state' := fst (handle rnd start_game conn state) in
  lastHitTime state' = lastHitTime state /\
  forall k p, Obj.get k (players state) = Some p ->
    exists p', Obj.get k (players state') = Some p' /\ same_identity p p'.
Proof.
  cbv zeta. unfold handle.
  destruct (Nat.eqb (length (Obj.keys (players state))) 0); cbn [fst].
  - split; auto. intros k p Hg. exists p.
    split; [auto | apply same_identity_refl].
  - cbn [lastHitTime players]. split; auto.
    intros k p Hg. now apply identity_reset.
Qed.

(** * Properties over binary64 *)

Section B64Facts.
Import SpecFloat.

(** Rounding keeps the sign: what is rounded from a quantity that is not
    negative is not below 0. *)
Lemma b64_round_not_below_zero mx ex lx :
  B64.ltb (binary_round_aux B64.prec B64.emax false mx ex lx) B64.zero = false.
Proof.
  unfold binary_round_aux.
  destruct (shr_fexp B64.prec B64.emax mx ex lx) as [mrs' e'].
  destruct (shr_fexp B64.prec B64.emax _ e' loc_Exact) as [mrs'' e''].
  destruct (shr_m mrs''); [reflexivity| |reflexivity].
  destruct (Z.leb e'' _); reflexivity.
Qed.

Lemma b64_c20_value : B64.c20 = S754_finite false 5629499534213120 (-48).
Proof. reflexivity. Qed.

Lemma b64_add_20_not_below_zero h :
  B64.ltb h B64.zero = false -> B64.ltb (B64.add h B64.c20) B64.zero = false.
Proof.
  intros H. rewrite b64_c20_value.
  destruct h as [s|s| |s m e].
  - reflexivity.
  - destruct s; [discriminate | reflexivity].
  - reflexivity.
  - destruct s; [discriminate|].
    unfold B64.add, SFadd. cbn [cond_Zopp].
    set (a := fst (shl_align m e _)). set (b := fst (shl_align _ _ _)).
    change (Z.add (Zpos a) (Zpos b)) with (Zpos (a + b)).
    unfold binary_normalize, binary_round.
    destruct (shl_align (a + b) _ _) as [mz ez].
    apply b64_round_not_below_zero.
Qed.

Lemma b64_min_150_not_below_zero h :
  B64.ltb h B64.zero = false -> B64.ltb (B64.min B64.c150 h) B64.zero = false.
Proof.
  intros H. unfold B64.min.
  destruct (SFcompare B64.c150 h) as [[ | | ]|]; auto.
Qed.

Lemma b64_heal_not_below_zero h :
  B64.ltb h B64.zero = false ->
  B64.ltb (B64.min B64.c150 (B64.add h B64.c20)) B64.zero = false.
Proof.
  intros H. now apply b64_min_150_not_below_zero, b64_add_20_not_below_zero.
Qed.

Lemma b64_damaged_not_below_zero h d :
  B64.ltb (B64.damaged h d) B64.zero = false.
Proof.
  unfold B64.damaged.
  destruct (B64.ltb (B64.sub h d) B64.zero) eqn:E; [reflexivity | exact E].
Qed.

End B64Facts.

Section B64Invariant.
Variable hypot : B64.number -> B64.number -> B64.number.

Lemma b64_get_not_below_zero k p ps :
  b64_not_below_zero ps -> Obj.get k ps = Some p ->
  B64.ltb (B64.Player.hp p) B64.zero = false.
Proof.
  unfold b64_not_below_zero. intros HF Hg. apply Obj_get_In in Hg.
  rewrite Forall_forall in HF. apply HF.
  change p with (snd (k, p)). now apply in_map.
Qed.

Lemma b64_reset_not_below_zero hunterId ids ps :
  b64_not_below_zero ps ->
  b64_not_below_zero
    (fold_left (fun ps id => B64.reset_player hunterId id ps) ids ps).
Proof.
  revert ps. induction ids as [|id ids IH]; simpl; auto.
  intros ps H. apply IH. unfold B64.reset_player.
  apply Obj_Forall_update; auto.
Qed.

Lemma b64_heal_source_not_below_zero sourceId ps :
  b64_not_below_zero ps -> b64_not_below_zero (B64.heal_source sourceId ps).
Proof.
  intros H. unfold B64.heal_source. destruct sourceId as [s|]; auto.
  destruct (Obj.get s ps) as [source|] eqn:Hg; auto.
  destruct (Role_eqb (B64.Player.role source) hunter); auto.
  apply Obj_Forall_update; auto. intros p _. simpl.
  apply b64_heal_not_below_zero. eapply b64_get_not_below_zero; eauto.
Qed.

Lemma b64_handle_not_below_zero rnd data conn state :
  b64_not_below_zero (B64.players state) ->
  b64_not_below_zero (B64.players (fst (B64.handle rnd data conn state))).
Proof.
  intros H.
  destruct data as [|c|id x z r| |tid sid dmg|dmg|id w|ty]; simpl.
  - apply Obj_Forall_set; auto.
  - destruct (Obj.get conn (B64.players state)); simpl; auto.
    apply Obj_Forall_update; auto.
    intros v Hv. exact (b64_get_not_below_zero _ _ _ H Hv).
  - destruct (Obj.get id (B64.players state)); simpl; auto.
    apply Obj_Forall_update; auto.
    intros v Hv. exact (b64_get_not_below_zero _ _ _ H Hv).
  - destruct (Nat.eqb (length (Obj.keys (B64.players state))) 0); simpl; auto.
    now apply b64_reset_not_below_zero.
  - destruct (Obj.get tid (B64.players state)) as [target|]; simpl; auto.
    assert (H1 : b64_not_below_zero
                   (Obj.update tid
                      (B64.Player.with_hp
                         (B64.damaged (B64.Player.hp target) dmg))
                      (B64.players state))).
    { apply Obj_Forall_update; auto. intros v _. simpl.
      apply b64_damaged_not_below_zero. }
    destruct (B64.eqb _ B64.zero && truthy sid); auto.
    now apply b64_heal_source_not_below_zero.
  - destruct (B64.minion state); simpl; auto.
    destruct (B64.leb _ B64.zero); simpl; auto.
  - destruct (Obj.get id (B64.players state)); simpl; auto.
    apply Obj_Forall_update; auto.
    intros v Hv. exact (b64_get_not_below_zero _ _ _ H Hv).
  - assumption.
Qed.

Lemma b64_tick_not_below_zero state :
  b64_not_below_zero (B64.players state) ->
  match fst (B64.minionTick hypot (Some state)) with
  | Some state' => b64_not_below_zero (B64.players state')
  | None => False
  end.
Proof.
  intros H. unfold B64.minionTick.
  destruct (B64.started state); simpl; auto.
  destruct (B64.minion state) as [m|]; simpl; auto.
  destruct (B64.find_nearest hypot m (B64.players state))
    as [minDist [[k p]|]]; simpl; auto.
  destruct (B64.ltb B64.zero _); simpl; auto.
  destruct (B64.ltb minDist B64.c3_5); simpl; auto.
  apply Obj_Forall_update; auto. intros v _. simpl.
  apply b64_damaged_not_below_zero.
Qed.

Lemma b64_reachable_not_below_zero room :
  B64.reachable hypot room ->
  match room with
  | Some state => b64_not_below_zero (B64.players state)
  | None => True
  end.
Proof.
  induction 1 as [|room room' Hr IH Hs]; [exact I|].
  destruct Hs as [rnd data conn room|room].
  - unfold B64.onMessage. destruct room as [state|].
    + generalize (b64_handle_not_below_zero rnd data conn state IH).
      destruct (B64.handle rnd data conn state); auto.
    + assert (H0 : b64_not_below_zero (B64.players B64.initial_state))
        by constructor.
      generalize (b64_handle_not_below_zero rnd data conn B64.initial_state H0).
      destruct (B64.handle rnd data conn B64.initial_state); auto.
  - destruct room as [state|]; [|exact I].
    generalize (b64_tick_not_below_zero state IH).
    destruct (fst (B64.minionTick hypot (Some state))); tauto.
Qed.

End B64Invariant.

(** ** Sessions over binary64 *)

Lemma b64_run_reachable hypot session : forall room,
  B64.reachable hypot room -> B64.reachable hypot (B64.run hypot session room).
Proof.
  induction session as [|ev session IH]; intros room Hr; [exact Hr|].
  apply IH. apply (B64.reachable_step hypot room); [exact Hr|].
  destruct ev as [rnd data conn|]; constructor.
Qed.

Lemma b64_run_nan :
  B64.run B64.plain_hypot b64_session_nan None = Some b64_lobby_nan.
Proof. vm_compute. reflexivity. Qed.

Lemma b64_run_moved :
  B64.run B64.plain_hypot b64_session_moved None = Some b64_game_moved.
Proof. vm_compute. reflexivity. Qed.

Lemma b64_run_played :
  B64.run B64.plain_hypot b64_session_played None = Some b64_game_played.
Proof. vm_compute. reflexivity. Qed.

Lemma b64_reachable_played :
  B64.reachable B64.plain_hypot (Some b64_game_played).
Proof.
  rewrite <- b64_run_played. apply b64_run_reachable. constructor.
Qed.

Lemma b64_hp_floor_intro h : B64.ltb h B64.zero = false -> b64_hp_floor h.
Proof.
  intros H. split; [exact H|].
  destruct h as [s|s| |s m e].
  - right. now destruct s.
  - destruct s; [discriminate | now right].
  - now left.
  - destruct s; [discriminate | now right].
Qed.

(** C4, as stated, fails: after the join of "a", a hit of damage -Infinity
    on "a" (-1e999 in the message), which leaves its hp at Infinity, and a
    hit of damage Infinity on "a", the hp of "a" is NaN, which is not
    >= 0: the test [hp < 0] of the clamp is false for NaN. *)
Lemma hp_nan_after_infinite_hits :
  B64.reachable B64.plain_hypot (Some b64_lobby_nan) /\
  B64.hp_of "a" (B64.players b64_lobby_nan) = B64.nan /\
  B64.leb B64.zero (B64.hp_of "a" (B64.players b64_lobby_nan)) = false.
Proof.
  split; [|split; reflexivity].
  rewrite <- b64_run_nan. apply b64_run_reachable. constructor.
Qed.

(** C4, amended: in every reachable state of a session over binary64
    numbers, so after every operation (each of the messages, whatever
    numbers it carries, and each run of the minion loop), the hp of every
    player is never below 0: it is NaN or it is >= 0. *)
Theorem hp_never_negative hypot state :
  B64.reachable hypot (Some state) ->
  Forall (fun p => b64_hp_floor (B64.Player.hp p))
    (Obj.values (B64.players state)).
Proof.
  intros H.
  generalize (b64_reachable_not_below_zero hypot (Some state) H).
  unfold b64_not_below_zero. apply Forall_impl.
  intros p. apply b64_hp_floor_intro.
Qed.

Lemma hp_never_negative_witness :
  B64.reachable B64.plain_hypot (Some b64_game_played) /\
  Forall (fun p => b64_hp_floor (B64.Player.hp p))
    (Obj.values (B64.players b64_game_played)).
Proof.
  split; [exact b64_reachable_played|].
  exact (hp_never_negative B64.plain_hypot b64_game_played
           b64_reachable_played).
Defined.

(** ** The minion loop over binary64 *)

Section B64Loop.
Variable hypot : B64.number -> B64.number -> B64.number.

Lemma b64_scan_found m all e acc :
  In e all ->
  (forall k p, snd acc = Some (k, p) ->
     In (k, p) all /\ B64.alive runner p = true /\ fst acc = B64.distance hypot m p) ->
  forall k p, snd (B64.scan hypot m acc e) = Some (k, p) ->
    In (k, p) all /\ B64.alive runner p = true /\
    fst (B64.scan hypot m acc e) = B64.distance hypot m p.
Proof.
  intros Hin Hacc. destruct acc as [d n], e as [k0 p0]. unfold B64.scan.
  destruct (B64.alive runner p0) eqn:Ha; [|exact Hacc].
  destruct (B64.ltb _ d); [|exact Hacc].
  intros k p [= <- <-]. auto.
Qed.

Lemma b64_fold_found m all ps : forall acc,
  incl ps all ->
  (forall k p, snd acc = Some (k, p) ->
     In (k, p) all /\ B64.alive runner p = true /\ fst acc = B64.distance hypot m p) ->
  forall k p, snd (fold_left (B64.scan hypot m) ps acc) = Some (k, p) ->
    In (k, p) all /\ B64.alive runner p = true /\
    fst (fold_left (B64.scan hypot m) ps acc) = B64.distance hypot m p.
Proof.
  induction ps as [|e ps IH]; intros acc Hincl Hacc; [exact Hacc|].
  cbn [fold_left]. apply IH.
  - intros x Hx. apply Hincl. now right.
  - apply b64_scan_found; auto. apply Hincl. now left.
Qed.

(** The target the scan leaves is a living runner of the roster, and
    [minDist] is the distance computed for it. *)
Lemma b64_find_nearest_found m ps k p :
  snd (B64.find_nearest hypot m ps) = Some (k, p) ->
  In (k, p) ps /\ B64.alive runner p = true /\
  fst (B64.find_nearest hypot m ps) = B64.distance hypot m p.
Proof.
  unfold B64.find_nearest. apply b64_fold_found.
  - apply incl_refl.
  - intros k' p' H. discriminate.
Qed.

(** C7, amended: on a run of the loop with [started], a minion and a
    target (the living runner the scan leaves in [nearest], with [minDist]
    the distance [Math.hypot] has computed for it), the hp of the target
    is reduced by 0.5 and clamped at 0, and no other player changes, when
    [len], the distance as [Math.sqrt(dx*dx + dz*dz)] computes it before
    the move, is > 0 and [minDist] is < 3.5.  When [len] is not > 0 (the
    distance is 0, or so small that the squares underflow to 0) the run
    changes nothing at all, and when [minDist] is not < 3.5 it changes no
    player. *)
Theorem minion_contact_damage state m k p :
  B64.well_formed state ->
  B64.started state = true -> B64.minion state = Some m ->
  snd (B64.find_nearest hypot m (B64.players state)) = Some (k, p) ->
  Obj.get k (B64.players state) = Some p /\
  B64.alive runner p = true /\
  fst (B64.find_nearest hypot m (B64.players state))
  = B64.distance hypot m p /\
  (B64.ltb B64.zero (B64.len m p) = true ->
   B64.ltb (B64.distance hypot m p) B64.c3_5 = true ->
   exists state',
     fst (B64.minionTick hypot (Some state)) = Some state' /\
     Obj.get k (B64.players state')
     = Some (B64.Player.with_hp
               (B64.damaged (B64.Player.hp p) B64.c0_5) p) /\
     forall k', k' <> k ->
       Obj.get k' (B64.players state') = Obj.get k' (B64.players state)) /\
  (B64.ltb B64.zero (B64.len m p) = false ->
   fst (B64.minionTick hypot (Some state)) = Some state) /\
  (B64.ltb (B64.distance hypot m p) B64.c3_5 = false ->
   exists state',
     fst (B64.minionTick hypot (Some state)) = Some state' /\
     B64.players state' = B64.players state).
Proof.
  intros Hwf Hs Hm Hn.
  destruct (b64_find_nearest_found m _ k p Hn) as (Hin & Ha & Hd).
  assert (Hg : Obj.get k (B64.players state) = Some p)
    by (apply Obj_In_get; auto).
  split; [exact Hg|]. split; [exact Ha|]. split; [exact Hd|].
  assert (E : B64.find_nearest hypot m (B64.players state)
              = (B64.distance hypot m p, Some (k, p))).
  { rewrite <- Hd, <- Hn.
    now destruct (B64.find_nearest hypot m (B64.players state)). }
  unfold B64.minionTick. rewrite Hs, Hm. cbn [negb]. rewrite E.
  fold (B64.len m p).
  split; [|split].
  - intros Hlen H35. rewrite Hlen, H35.
    eexists. split; [reflexivity|].
    cbn [B64.players B64.with_players B64.with_minion].
    rewrite Obj_get_update_same, Hg. split; [reflexivity|].
    intros k' Hk'. now apply Obj_get_update_other.
  - intros Hlen. rewrite Hlen. reflexivity.
  - intros H35. rewrite H35.
    destruct (B64.ltb B64.zero (B64.len m p));
      eexists; split; reflexivity.
Qed.

End B64Loop.

Lemma b64_reachable_moved :
  B64.reachable B64.plain_hypot (Some b64_game_moved).
Proof.
  rewrite <- b64_run_moved. apply b64_run_reachable. constructor.
Qed.

Lemma b64_well_formed_moved : B64.well_formed b64_game_moved.
Proof.
  unfold B64.well_formed; simpl.
  repeat constructor; simpl; intuition discriminate.
Qed.

Lemma b64_target_moved :
  snd (B64.find_nearest B64.plain_hypot B64.fresh_minion
         (B64.players b64_game_moved))
  = Some ("b"%string, b64_runner_moved).
Proof. vm_compute. reflexivity. Qed.

Lemma minion_contact_damage_witness :
  B64.reachable B64.plain_hypot (Some b64_game_moved) /\
  B64.well_formed b64_game_moved /\
  B64.started b64_game_moved = true /\
  B64.minion b64_game_moved = Some B64.fresh_minion /\
  snd (B64.find_nearest B64.plain_hypot B64.fresh_minion
         (B64.players b64_game_moved))
  = Some ("b"%string, b64_runner_moved) /\
  B64.ltb B64.zero (B64.len B64.fresh_minion b64_runner_moved) = true /\
  B64.ltb (B64.distance B64.plain_hypot B64.fresh_minion b64_runner_moved)
    B64.c3_5 = true /\
  exists state',
    fst (B64.minionTick B64.plain_hypot (Some b64_game_moved)) = Some state' /\
    Obj.get "b" (B64.players state')
    = Some (B64.Player.with_hp (B64.of_scaled 199 (-1)) b64_runner_moved).
Proof.
  assert (Hlen : B64.ltb B64.zero (B64.len B64.fresh_minion b64_runner_moved)
                 = true) by (vm_compute; reflexivity).
  assert (H35 : B64.ltb
                  (B64.distance B64.plain_hypot B64.fresh_minion
                     b64_runner_moved)
                  B64.c3_5 = true) by (vm_compute; reflexivity).
  split; [exact b64_reachable_moved|].
  split; [exact b64_well_formed_moved|]. split; [reflexivity|].
  split; [reflexivity|]. split; [exact b64_target_moved|].
  split; [exact Hlen|]. split; [exact H35|].
  destruct (minion_contact_damage B64.plain_hypot b64_game_moved
              B64.fresh_minion "b" b64_runner_moved b64_well_formed_moved
              eq_refl eq_refl b64_target_moved) as (_ & _ & _ & Hhit & _).
  destruct (Hhit Hlen H35) as (state' & H1 & H2 & _).
  exists state'. split; [exact H1|]. exact H2.
Defined.

(** ** The order of binary64 numbers *)

Section B64Order.
Import SpecFloat.

Ltac b64_compare :=
  repeat match goal with
  | H : context [Z.compare ?x ?y] |- _ =>
      destruct (Z.compare_spec x y); try subst
  | |- context [Z.compare ?x ?y] =>
      destruct (Z.compare_spec x y); try subst
  | H : context [Pos.compare_cont Eq ?x ?y] |- _ =>
      change (Pos.compare_cont Eq x y) with (Pos.compare x y) in H;
      destruct (Pos.compare_spec x y); try subst
  | |- context [Pos.compare_cont Eq ?x ?y] =>
      change (Pos.compare_cont Eq x y) with (Pos.compare x y);
      destruct (Pos.compare_spec x y); try subst
  end;
  cbn [CompOpp] in *; try reflexivity; try discriminate; try lia.

Lemma b64_ltb_trans a b c :
  B64.ltb a b = true -> B64.ltb b c = true -> B64.ltb a c = true.
Proof.
  unfold B64.ltb, SFltb, SFcompare.
  destruct a as [[]|[]| |[] m1 e1], b as [[]|[]| |[] m2 e2],
           c as [[]|[]| |[] m3 e3];
    try reflexivity; try discriminate; intros H1 H2; b64_compare.
Qed.

Lemma b64_leb_ltb_trans a b c :
  B64.leb a b = true -> B64.ltb b c = true -> B64.ltb a c = true.
Proof.
  unfold B64.leb, B64.ltb, SFleb, SFltb, SFcompare.
  destruct a as [[]|[]| |[] m1 e1], b as [[]|[]| |[] m2 e2],
           c as [[]|[]| |[] m3 e3];
    try reflexivity; try discriminate; intros H1 H2; b64_compare.
Qed.

Lemma b64_ltb_not_leb a b : B64.ltb a b = true -> B64.leb b a = false.
Proof.
  unfold B64.leb, B64.ltb, SFleb, SFltb, SFcompare.
  destruct a as [[]|[]| |[] m1 e1], b as [[]|[]| |[] m2 e2];
    try reflexivity; try discriminate; intros H1; b64_compare.
Qed.

End B64Order.

(** ** The target of the minion over binary64 *)

Section B64Target.
Variable hypot : B64.number -> B64.number -> B64.number.

Lemma b64_scan_cases m (d : B64.number) n k p :
  (B64.alive runner p = true /\
   B64.ltb (B64.distance hypot m p) d = true /\
   B64.scan hypot m (d, n) (k, p) = (B64.distance hypot m p, Some (k, p))) \/
  ((B64.alive runner p = true -> B64.ltb (B64.distance hypot m p) d = false) /\
   B64.scan hypot m (d, n) (k, p) = (d, n)).
Proof.
  unfold B64.scan. fold (B64.distance hypot m p).
  destruct (B64.alive runner p); [|right; split; [discriminate | reflexivity]].
  destruct (B64.ltb (B64.distance hypot m p) d); [left | right]; auto.
Qed.

(** What the scan leaves in [minDist] and [nearest]. *)
Lemma b64_scan_fold m ps : forall (d0 : B64.number) n0,
  (fold_left (B64.scan hypot m) ps (d0, n0) = (d0, n0) /\
   forall k p, In (k, p) ps -> B64.alive runner p = true ->
     B64.ltb (B64.distance hypot m p) d0 = false) \/
  (exists k p,
     fold_left (B64.scan hypot m) ps (d0, n0)
     = (B64.distance hypot m p, Some (k, p)) /\
     B64.ltb (B64.distance hypot m p) d0 = true /\
     b64_first_nearest hypot m ps k p).
Proof.
  induction ps as [|[k0 p0] ps IH]; intros d0 n0; cbn [fold_left].
  - left. split; auto. intros k p [].
  - destruct (b64_scan_cases m d0 n0 k0 p0) as [(Ha & Hlt & E)|(Hge & E)];
      rewrite E.
    + destruct (IH (B64.distance hypot m p0) (Some (k0, p0)))
        as [(E' & Hall)|(k & p & E' & Hd & l1 & l2 & Hps & Hp & H1 & H2)];
        rewrite E'.
      * right. exists k0, p0. split; [reflexivity|]. split; [exact Hlt|].
        exists [], ps. split; [reflexivity|]. split; [exact Ha|].
        split; [intros k' p' []|exact Hall].
      * right. exists k, p. split; [reflexivity|].
        split; [exact (b64_ltb_trans _ _ _ Hd Hlt)|].
        exists ((k0, p0) :: l1), l2. subst ps.
        split; [reflexivity|]. split; [exact Hp|]. split; [|exact H2].
        intros k' p' [[= <- <-]|Hin] Ha'; [|eauto].
        now apply b64_ltb_not_leb.
    + destruct (IH d0 n0)
        as [(E' & Hall)|(k & p & E' & Hd & l1 & l2 & Hps & Hp & H1 & H2)];
        rewrite E'.
      * left. split; auto.
        intros k p [[= <- <-]|Hin] Ha; auto. eauto.
      * right. exists k, p. split; [reflexivity|]. split; [exact Hd|].
        exists ((k0, p0) :: l1), l2. subst ps.
        split; [reflexivity|]. split; [exact Hp|]. split; [|exact H2].
        intros k' p' [[= <- <-]|Hin] Ha'; [|eauto].
        destruct (B64.leb (B64.distance hypot m p0) (B64.distance hypot m p))
          eqn:Hle; [|reflexivity].
        rewrite (b64_leb_ltb_trans _ _ _ Hle Hd) in Hge.
        now apply Hge.
Qed.

(** X23: over binary64 numbers, the target the scan of the minion loop
    leaves is the first player, in the order of iteration of the roster,
    among the runners with hp > 0 whose distance, as [Math.hypot] computes
    it, is the least, and that distance, which is left in [minDist], is
    < 9999: no living runner before the target is as near, none after it
    is nearer (a runner whose distance is NaN is never nearer).  The scan
    leaves no target exactly when no living runner is at a distance
    < 9999. *)
Theorem scan_targets_first_nearest m ps :
  match B64.find_nearest hypot m ps with
  | (minDist, Some (k, p)) =>
      b64_first_nearest hypot m ps k p /\
      minDist = B64.distance hypot m p /\
      B64.ltb minDist B64.c9999 = true
  | (minDist, None) =>
      minDist = B64.c9999 /\
      forall k p, In (k, p) ps -> B64.alive runner p = true ->
        B64.ltb (B64.distance hypot m p) B64.c9999 = false
  end.
Proof.
  unfold B64.find_nearest.
  destruct (b64_scan_fold m ps B64.c9999 None)
    as [(E & Hall)|(k & p & E & Hd & Hn)]; rewrite E; auto.
Qed.

(** X16: over binary64 numbers, when a run of the loop hurts its target
    ([len] is > 0 and [minDist] is < 3.5), the hit that is broadcast names
    the id of the target and carries the hp that is now stored for it; the
    messages of the evaluator on the new state follow, and the position of
    the minion after the move, [speed] times the direction [dx / len],
    [dz / len] away from the old one, comes last. *)
Theorem tick_hit_messages state m k p :
  B64.well_formed state ->
  B64.started state = true -> B64.minion state = Some m ->
  snd (B64.find_nearest hypot m (B64.players state)) = Some (k, p) ->
  B64.ltb B64.zero (B64.len m p) = true ->
  B64.ltb (B64.distance hypot m p) B64.c3_5 = true ->
  exists state' m',
    fst (B64.minionTick hypot (Some state)) = Some state' /\
    B64.minion state' = Some m' /\
    B64.Minion.x m'
    = B64.add (B64.Minion.x m)
        (B64.mul
           (B64.div (B64.sub (B64.Player.x p) (B64.Minion.x m)) (B64.len m p))
           B64.c0_15) /\
    B64.Minion.z m'
    = B64.add (B64.Minion.z m)
        (B64.mul
           (B64.div (B64.sub (B64.Player.z p) (B64.Minion.z m)) (B64.len m p))
           B64.c0_15) /\
    B64.Minion.hp m' = B64.Minion.hp m /\
    snd (B64.minionTick hypot (Some state))
    = B64.broadcast
        (B64.msg_hit (B64.Player.id p) (B64.hp_of k (B64.players state'))) []
        :: B64.checkWinCondition state'
        ++ [B64.broadcast
              (B64.msg_minion_update (B64.Minion.x m') (B64.Minion.z m')
                 (B64.Minion.hp m')) []].
Proof.
  intros Hwf Hs Hm Hn Hlen H35.
  destruct (b64_find_nearest_found hypot m _ k p Hn) as (Hin & Ha & Hd).
  assert (Hg : Obj.get k (B64.players state) = Some p)
    by (apply Obj_In_get; auto).
  assert (E : B64.find_nearest hypot m (B64.players state)
              = (B64.distance hypot m p, Some (k, p))).
  { rewrite <- Hd, <- Hn.
    now destruct (B64.find_nearest hypot m (B64.players state)). }
  unfold B64.minionTick. rewrite Hs, Hm. cbn [negb]. rewrite E.
  fold (B64.len m p). rewrite Hlen, H35.
  cbn [fst snd B64.minion B64.with_players B64.with_minion B64.players].
  eexists. eexists. split; [reflexivity|]. split; [reflexivity|].
  cbn [B64.Minion.x B64.Minion.z B64.Minion.hp B64.players].
  split; [reflexivity|]. split; [reflexivity|]. split; [reflexivity|].
  unfold B64.hp_of, B64.with_players at 2, B64.with_minion at 2.
  cbn [B64.players].
  rewrite Obj_get_update_same, Hg. reflexivity.
Qed.

End B64Target.

Lemma tick_hit_messages_witness :
  B64.reachable B64.plain_hypot (Some b64_game_moved) /\
  B64.well_formed b64_game_moved /\
  snd (B64.find_nearest B64.plain_hypot B64.fresh_minion
         (B64.players b64_game_moved))
  = Some ("b"%string, b64_runner_moved) /\
  exists state',
    fst (B64.minionTick B64.plain_hypot (Some b64_game_moved)) = Some state' /\
    B64.minion state' = Some (B64.Minion.mk B64.c0_15 B64.zero B64.c500) /\
    snd (B64.minionTick B64.plain_hypot (Some b64_game_moved))
    = [B64.broadcast (B64.msg_hit "b" (B64.of_scaled 199 (-1))) [];
       B64.broadcast
         (B64.msg_minion_update B64.c0_15 B64.zero B64.c500) []].
Proof.
  assert (Hlen : B64.ltb B64.zero (B64.len B64.fresh_minion b64_runner_moved)
                 = true) by (vm_compute; reflexivity).
  assert (H35 : B64.ltb
                  (B64.distance B64.plain_hypot B64.fresh_minion
                     b64_runner_moved)
                  B64.c3_5 = true) by (vm_compute; reflexivity).
  split; [exact b64_reachable_moved|].
  split; [exact b64_well_formed_moved|]. split; [exact b64_target_moved|].
  destruct (tick_hit_messages B64.plain_hypot b64_game_moved B64.fresh_minion
              "b" b64_runner_moved b64_well_formed_moved eq_refl eq_refl
              b64_target_moved Hlen H35)
    as (state' & m' & H1 & H2 & _).
  exists state'. split; [exact H1|].
  assert (Es : Some state'
               = fst (B64.minionTick B64.plain_hypot (Some b64_game_moved)))
    by (symmetry; exact H1).
  vm_compute in Es. injection Es as ->.
  split; vm_compute; reflexivity.
Defined.
